(** * Feishu rich-text conversion (pkg/channels/feishu/richtext.go)

    A shallow embedding of the Markdown-to-post converter of the Feishu
    channel: [markdownToFeishuPost], [parseInlineElements] and
    [buildFeishuContent], together with the parts of Go's [strings] and
    [regexp] packages they call.

    Go strings are byte sequences.  They are modelled by [string], whose
    characters are the 256 byte values; offsets and lengths are byte
    offsets, as in Go.

    The inbound side of the channel ([handleMessageReceive] and the
    functions it calls), [inferFeishuFileType] and the [send_file] tool
    (package [tools]) follow, with what they call outside their file taken as
    parameters. *)

From Stdlib Require Import Strings.String Strings.Ascii Lists.List.
From Stdlib Require Import Arith.Arith Bool.Bool Lia.
Import ListNotations.

Local Open Scope string_scope.
Local Open Scope list_scope.
Local Open Scope nat_scope.

(** ** Byte strings: slicing and the [strings] package *)

Module strings.

(** [s[n:]] *)
Fixpoint drop (n : nat) (s : string) : string :=
  match n, s with
  | 0, _ => s
  | S n', String _ s' => drop n' s'
  | S _, EmptyString => EmptyString
  end.

(** [s[:n]] *)
Fixpoint take (n : nat) (s : string) : string :=
  match n, s with
  | 0, _ => EmptyString
  | S n', String c s' => String c (take n' s')
  | S _, EmptyString => EmptyString
  end.

(** [s[lo:hi]]; the converter only slices within bounds. *)
Definition slice (lo hi : nat) (s : string) : string :=
  take (hi - lo) (drop lo s).

Definition HasPrefix (s p : string) : bool := String.prefix p s.

Definition HasSuffix (s p : string) : bool :=
  Nat.leb (String.length p) (String.length s) &&
  String.eqb (drop (String.length s - String.length p) s) p.

Definition newline : ascii := "010"%char.

(** [strings.Split(s, "\n")]: the pieces between newlines; never empty. *)
Fixpoint SplitLines (s : string) : list string :=
  match s with
  | EmptyString => [EmptyString]
  | String c s' =>
      if Ascii.eqb c newline then EmptyString :: SplitLines s'
      else match SplitLines s' with
           | l :: ls => String c l :: ls
           | [] => [String c EmptyString]
           end
  end.

(** [strings.Join(elems, "\n")] *)
Definition JoinLines (elems : list string) : string :=
  String.concat (String newline EmptyString) elems.

Definition bytes (l : list nat) : string :=
  string_of_list_ascii (map ascii_of_nat l).

(** The UTF-8 encodings of the runes for which [unicode.IsSpace] holds:
    the six ASCII ones, U+0085, U+00A0, U+1680, U+2000..U+200A, U+2028,
    U+2029, U+202F, U+205F and U+3000. *)
Definition whiteSpace : list string :=
  map bytes
    [ [9]; [10]; [11]; [12]; [13]; [32];
      [194; 133]; [194; 160];
      [225; 154; 128];
      [226; 128; 128]; [226; 128; 129]; [226; 128; 130]; [226; 128; 131];
      [226; 128; 132]; [226; 128; 133]; [226; 128; 134]; [226; 128; 135];
      [226; 128; 136]; [226; 128; 137]; [226; 128; 138];
      [226; 128; 168]; [226; 128; 169]; [226; 128; 175];
      [226; 129; 159];
      [227; 128; 128] ].

Definition leadingSpace (s : string) : option string :=
  find (fun w => HasPrefix s w) whiteSpace.

Definition trailingSpace (s : string) : option string :=
  find (fun w => HasSuffix s w) whiteSpace.

(** Strip white-space runes from the front, one rune per step. *)
Fixpoint trimLeft (fuel : nat) (s : string) : string :=
  match fuel with
  | 0 => s
  | S fuel' =>
      match leadingSpace s with
      | Some w => trimLeft fuel' (drop (String.length w) s)
      | None => s
      end
  end.

(** Strip white-space runes from the back, one rune per step. *)
Fixpoint trimRight (fuel : nat) (s : string) : string :=
  match fuel with
  | 0 => s
  | S fuel' =>
      match trailingSpace s with
      | Some w => trimRight fuel' (take (String.length s - String.length w) s)
      | None => s
      end
  end.

(** [strings.TrimSpace]: all leading and trailing white space removed, as
    defined by Unicode.  Every step removes at least one byte, so
    [length s] steps are enough on each side. *)
Definition TrimSpace (s : string) : string :=
  trimRight (String.length s) (trimLeft (String.length s) s).

End strings.

(** ** The [regexp] package

    Go's matcher returns the leftmost match and, among the matches that
    start there, the one a backtracking search finds first.  The engine
    below is that backtracking search, written in continuation-passing
    style.  Repetition is over a byte class, which is all the patterns of
    the converter use.  Every literal of those patterns is an ASCII byte
    and every class sits under a repetition between such literals, so
    matching bytes and matching UTF-8 runes select the same spans. *)

Module regexp.

Inductive regex : Type :=
| Eps
| Class (p : ascii -> bool)
| Cat (r1 r2 : regex)
| Alt (r1 r2 : regex)
| Rep (p : ascii -> bool) (lo : nat) (hi : option nat) (greedy : bool)
| Group (n : nat) (r : regex)
| Bol
| Eol.

(** Spans of the capture groups seen so far, most recent first. *)
Definition caps : Type := list (nat * (nat * nat)).

Definition atLimit (hi : option nat) : bool :=
  match hi with Some 0 => true | _ => false end.

Definition orElse {A} (x : option A) (y : unit -> option A) : option A :=
  match x with Some a => Some a | None => y tt end.

(** [p{lo,hi}] (greedy) or [p{lo,hi}?] (lazy) followed by [k]. *)
Fixpoint rep {R} (p : ascii -> bool) (greedy : bool)
         (k : string -> nat -> option R)
         (s : string) (pos lo : nat) (hi : option nat) {struct s} : option R :=
  let stop := fun _ : unit => if Nat.eqb lo 0 then k s pos else None in
  let more := fun _ : unit =>
    match s with
    | String c s' =>
        if p c && negb (atLimit hi)
        then rep p greedy k s' (S pos) (pred lo) (option_map pred hi)
        else None
    | EmptyString => None
    end in
  if greedy then orElse (more tt) stop else orElse (stop tt) more.

Fixpoint bt {R} (r : regex) (s : string) (pos : nat) (c : caps)
         (k : string -> nat -> caps -> option R) {struct r} : option R :=
  match r with
  | Eps => k s pos c
  | Class p =>
      match s with
      | String a s' => if p a then k s' (S pos) c else None
      | EmptyString => None
      end
  | Cat r1 r2 => bt r1 s pos c (fun s' pos' c' => bt r2 s' pos' c' k)
  | Alt r1 r2 => orElse (bt r1 s pos c k) (fun _ => bt r2 s pos c k)
  | Rep p lo hi greedy => rep p greedy (fun s' pos' => k s' pos' c) s pos lo hi
  | Group n r1 =>
      bt r1 s pos c (fun s' pos' c' => k s' pos' ((n, (pos, pos')) :: c'))
  | Bol => if Nat.eqb pos 0 then k s pos c else None
  | Eol => match s with EmptyString => k s pos c | String _ _ => None end
  end.

Fixpoint numSubexp (r : regex) : nat :=
  match r with
  | Cat r1 r2 | Alt r1 r2 => Nat.max (numSubexp r1) (numSubexp r2)
  | Group n r1 => Nat.max n (numSubexp r1)
  | _ => 0
  end.

Fixpoint lookup (n : nat) (c : caps) : option (nat * nat) :=
  match c with
  | [] => None
  | (m, sp) :: c' => if Nat.eqb m n then Some sp else lookup n c'
  end.

(** The two entries of group [n] in the index slice. *)
Definition groupLoc (c : caps) (n : nat) : list nat :=
  match lookup n c with
  | Some (b, e) => [b; e]
  | None => []
  end.

Definition accept : string -> nat -> caps -> option (nat * caps) :=
  fun _ e c => Some (e, c).

(** Try every start offset from [pos] on, leftmost first. *)
Fixpoint findFrom (re : regex) (s : string) (pos : nat) : option (list nat) :=
  match bt re s pos [] accept with
  | Some (e, c) =>
      Some (pos :: e :: flat_map (groupLoc c) (seq 1 (numSubexp re)))
  | None =>
      match s with
      | EmptyString => None
      | String _ s' => findFrom re s' (S pos)
      end
  end.

(** [re.FindStringSubmatchIndex(s)]: [loc[0], loc[1]] is the span of the
    match and [loc[2n], loc[2n+1]] the span of group [n]. *)
Definition FindStringSubmatchIndex (re : regex) (s : string) : option (list nat) :=
  findFrom re s 0.

Fixpoint pairs (s : string) (loc : list nat) : list string :=
  match loc with
  | b :: e :: loc' => strings.slice b e s :: pairs s loc'
  | _ => []
  end.

(** [re.FindStringSubmatch(s)]: the matched text and the text of each
    group. *)
Definition FindStringSubmatch (re : regex) (s : string) : option (list string) :=
  option_map (pairs s) (FindStringSubmatchIndex re s).

(** Building blocks for writing patterns down. *)
Definition Lit (c : ascii) : regex := Class (Ascii.eqb c).
Definition Not (c : ascii) : ascii -> bool := fun a => negb (Ascii.eqb c a).
Definition Seq (l : list regex) : regex := fold_right Cat Eps l.
Definition Plus (p : ascii -> bool) : regex := Rep p 1 None true.
Definition PlusLazy (p : ascii -> bool) : regex := Rep p 1 None false.

(** [.] without the [s] flag: anything but a newline. *)
Definition anyNotNL : ascii -> bool := Not strings.newline.

(** [\s] is [[\t\n\f\r ]]. *)
Definition perlSpace (a : ascii) : bool :=
  existsb (Nat.eqb (nat_of_ascii a)) [9; 10; 12; 13; 32].

(** *** What a successful backtracking run has matched

    [Matches r s pos c s' pos' c']: [r] consumes the front of [s] from
    offset [pos], leaving [s'] at offset [pos'], and turns the captures
    [c] into [c']. *)

Fixpoint allBytes (p : ascii -> bool) (w : string) : bool :=
  match w with
  | EmptyString => true
  | String a w' => p a && allBytes p w'
  end.

Definition within (hi : option nat) (n : nat) : Prop :=
  match hi with Some h => n <= h | None => True end.

Inductive Matches : regex -> string -> nat -> caps -> string -> nat -> caps -> Prop :=
| MEps s pos c : Matches Eps s pos c s pos c
| MClass p a s pos c :
    p a = true -> Matches (Class p) (String a s) pos c s (S pos) c
| MCat r1 r2 s pos c s1 pos1 c1 s2 pos2 c2 :
    Matches r1 s pos c s1 pos1 c1 ->
    Matches r2 s1 pos1 c1 s2 pos2 c2 ->
    Matches (Cat r1 r2) s pos c s2 pos2 c2
| MAltL r1 r2 s pos c s' pos' c' :
    Matches r1 s pos c s' pos' c' -> Matches (Alt r1 r2) s pos c s' pos' c'
| MAltR r1 r2 s pos c s' pos' c' :
    Matches r2 s pos c s' pos' c' -> Matches (Alt r1 r2) s pos c s' pos' c'
| MRep p lo hi greedy w s pos c :
    allBytes p w = true -> lo <= String.length w -> within hi (String.length w) ->
    Matches (Rep p lo hi greedy) (w ++ s)%string pos c s (pos + String.length w) c
| MGroup n r s pos c s' pos' c' :
    Matches r s pos c s' pos' c' ->
    Matches (Group n r) s pos c s' pos' ((n, (pos, pos')) :: c')
| MBol s c : Matches Bol s 0 c s 0 c
| MEol pos c : Matches Eol EmptyString pos c EmptyString pos c.

End regexp.

(** ** The converter *)

Import strings regexp.

(** The package-level patterns.  [reCodeBlock] is declared next to them in
    the source and used by no function; it is left out. *)

(** [`([^`]+)`] *)
Definition reInlineCode : regex :=
  Seq [Lit "`"; Group 1 (Plus (Not "`")); Lit "`"].

(** [\[([^\]]+)\]\(([^)]+)\)] *)
Definition reMdLink : regex :=
  Seq [Lit "["; Group 1 (Plus (Not "]")); Lit "]";
       Lit "("; Group 2 (Plus (Not ")")); Lit ")"].

(** [\*\*(.+?)\*\*] *)
Definition reMdBoldStar : regex :=
  Seq [Lit "*"; Lit "*"; Group 1 (PlusLazy anyNotNL); Lit "*"; Lit "*"].

(** [__(.+?)__] *)
Definition reMdBoldUnder : regex :=
  Seq [Lit "_"; Lit "_"; Group 1 (PlusLazy anyNotNL); Lit "_"; Lit "_"].

(** [(?:^|[^*])\*([^*]+)\*(?:[^*]|$)].  No function of the package uses
    this pattern.  Its two unrepeated classes consume one byte here and one
    rune in Go, which is the same on ASCII text. *)
Definition reMdItalic : regex :=
  Seq [Alt Bol (Class (Not "*")); Lit "*"; Group 1 (Plus (Not "*")); Lit "*";
       Alt (Class (Not "*")) Eol].

(** [~~(.+?)~~] *)
Definition reMdStrike : regex :=
  Seq [Lit "~"; Lit "~"; Group 1 (PlusLazy anyNotNL); Lit "~"; Lit "~"].

(** [^#{1,6}\s+(.+)$] *)
Definition reMdHeading : regex :=
  Seq [Bol; Rep (Ascii.eqb "#") 1 (Some 6) true; Plus perlSpace;
       Group 1 (Plus anyNotNL); Eol].

(** The Go values the converter hands to the JSON encoder: strings, slices
    and string-keyed maps.  A map is kept as the list of its entries in the
    order the source writes them; no key is ever written twice. *)
#[warnings="-register-all"]
Inductive value : Type :=
| VNil
| VString (s : string)
| VSlice (l : list value)
| VMap (m : list (string * value)).

(** [type postElement map[string]any] *)
Definition postElement : Type := list (string * value).

Fixpoint get (m : postElement) (key : string) : option value :=
  match m with
  | [] => None
  | (k, v) :: m' => if String.eqb k key then Some v else get m' key
  end.

(** The three shapes of element the source builds. *)
Definition PlainText (t : string) : postElement :=
  [("tag", VString "text"); ("text", VString t)].

Definition Link (t h : string) : postElement :=
  [("tag", VString "a"); ("text", VString t); ("href", VString h)].

Definition StyledText (t st : string) : postElement :=
  [("tag", VString "text"); ("text", VString t); ("style", VSlice [VString st])].

(** The local [match] struct of [parseInlineElements]. *)
Record inlineMatch : Type := mkMatch {
  start : nat;
  end_ : nat;
  typ : string;
  groups : list string
}.

Definition idx (loc : list nat) (i : nat) : nat := nth i loc 0.

(** [earliest == nil || loc[0] < earliest.start] *)
Definition closer (loc : list nat) (earliest : option inlineMatch) : bool :=
  match earliest with
  | None => true
  | Some m => idx loc 0 <? start m
  end.

(** One of the four guarded blocks that follow the link block. *)
Definition tryPattern (re : regex) (ty : string) (remaining : string)
           (earliest : option inlineMatch) : option inlineMatch :=
  match FindStringSubmatchIndex re remaining with
  | Some loc =>
      if closer loc earliest
      then Some (mkMatch (idx loc 0) (idx loc 1) ty
                         [slice (idx loc 2) (idx loc 3) remaining])
      else earliest
  | None => earliest
  end.

(** Lines 130-163: the value of [earliest] after the five blocks. *)
Definition earliestMatch (remaining : string) : option inlineMatch :=
  let earliest : option inlineMatch := None in
  let earliest :=
    match FindStringSubmatchIndex reMdLink remaining with
    | Some loc =>
        Some (mkMatch (idx loc 0) (idx loc 1) "link"
                      [slice (idx loc 2) (idx loc 3) remaining;
                       slice (idx loc 4) (idx loc 5) remaining])
    | None => earliest
    end in
  let earliest := tryPattern reInlineCode "code" remaining earliest in
  let earliest := tryPattern reMdBoldStar "bold" remaining earliest in
  let earliest := tryPattern reMdBoldUnder "bold" remaining earliest in
  let earliest := tryPattern reMdStrike "strike" remaining earliest in
  earliest.

Definition group (m : inlineMatch) (i : nat) : string := nth i (groups m) "".

(** The [switch earliest.typ] of lines 179-201. *)
Definition appendMatched (elements : list postElement) (m : inlineMatch)
  : list postElement :=
  if String.eqb (typ m) "link" then elements ++ [Link (group m 0) (group m 1)]
  else if String.eqb (typ m) "code" then elements ++ [StyledText (group m 0) "code_block"]
  else if String.eqb (typ m) "bold" then elements ++ [StyledText (group m 0) "bold"]
  else if String.eqb (typ m) "strike" then elements ++ [StyledText (group m 0) "lineThrough"]
  else elements.

(** The [for remaining != ""] loop.  [fuel] bounds the number of
    iterations; [None] means the bound was reached. *)
Fixpoint inlineLoop (fuel : nat) (remaining : string)
         (elements : list postElement) : option (list postElement) :=
  if String.eqb remaining "" then Some elements
  else
    match fuel with
    | 0 => None
    | S fuel' =>
        match earliestMatch remaining with
        | None =>
            Some (if String.eqb remaining "" then elements
                  else elements ++ [PlainText remaining])
        | Some m =>
            let elements :=
              if 0 <? start m
              then elements ++ [PlainText (take (start m) remaining)]
              else elements in
            let elements := appendMatched elements m in
            inlineLoop fuel' (drop (end_ m) remaining) elements
        end
    end.

(** ["• "]: U+2022 in UTF-8, then a space. *)
Definition bullet : string := bytes [226; 128; 162; 32].

Definition isDigit (c : ascii) : bool :=
  (nat_of_ascii "0" <=? nat_of_ascii c) && (nat_of_ascii c <=? nat_of_ascii "9").

(** The guard of the empty numbered-list branch (line 113). *)
Definition isNumbered (line : string) : bool :=
  (2 <? String.length line) &&
  match line with
  | String c0 (String c1 _) => isDigit c0 && Ascii.eqb c1 "."
  | _ => false
  end.

(** Lines 109-115: what the loop starts from. *)
Definition stripListMarkers (line : string) : string :=
  let line := TrimSpace line in
  let line :=
    if HasPrefix line "- " || HasPrefix line "* "
    then (bullet ++ drop 2 line)%string
    else line in
  let line := if isNumbered line then line else line in
  line.

Definition parseInlineElements (line : string) : list postElement :=
  let line := stripListMarkers line in
  match inlineLoop (S (String.length line)) line [] with
  | Some elements => elements
  | None => []
  end.

Definition fence : string := "```".

Definition isFence (line : string) : bool := HasPrefix (TrimSpace line) fence.

Definition codeBlockLine (codeLines : list string) : list postElement :=
  [StyledText (JoinLines codeLines) "code_block"].

(** The [for i < len(lines)] loop of [markdownToFeishuPost], on the lines
    from index [i] on.  The inner function is the loop that collects the
    lines of a code block. *)
Fixpoint postLoop (lines : list string) (contentLines : list (list postElement))
  : list (list postElement) :=
  match lines with
  | [] => contentLines
  | line :: rest =>
      if isFence line then
        (fix collect (ls : list string) (codeLines : list string)
           : list (list postElement) :=
           match ls with
           | [] => contentLines ++ [codeBlockLine codeLines]
           | l :: ls' =>
               if isFence l
               then postLoop ls' (contentLines ++ [codeBlockLine codeLines])
               else collect ls' (codeLines ++ [l])
           end) rest []
      else
        match FindStringSubmatch reMdHeading line with
        | Some match_ =>
            postLoop rest (contentLines ++ [[StyledText (nth 1 match_ "") "bold"]])
        | None =>
            if String.eqb (TrimSpace line) ""
            then postLoop rest (contentLines ++ [[PlainText ""]])
            else
              let elements := parseInlineElements line in
              if 0 <? List.length elements
              then postLoop rest (contentLines ++ [elements])
              else postLoop rest contentLines
        end
  end.

(** [contentLines] when the loop ends. *)
Definition contentLinesOf (text : string) : list (list postElement) :=
  postLoop (SplitLines text) [].

(** A [[][]postElement] as a Go value: the nil slice stays nil. *)
Definition contentValue (contentLines : list (list postElement)) : value :=
  match contentLines with
  | [] => VNil
  | _ => VSlice (map (fun line => VSlice (map VMap line)) contentLines)
  end.

(** The [post] map of lines 96-100. *)
Definition postValue (text : string) : value :=
  VMap [("zh_cn", VMap [("content", contentValue (contentLinesOf text))])].

(** [larkim.MsgTypePost] and [larkim.MsgTypeText] of the Lark SDK. *)
Definition MsgTypePost : string := "post".
Definition MsgTypeText : string := "text".

Section Encoding.

(** [encoding/json] is outside the package: [Marshal] is any function
    from values to the encoded text and an optional error. *)
Variable error : Type.
Variable Marshal : value -> string * option error.

Definition markdownToFeishuPost (text : string) : string * option error :=
  let '(data, err) := Marshal (postValue text) in
  (data, err).

Definition buildFeishuContent (content : string)
  : string * string * option error :=
  let '(postPayload, err) := markdownToFeishuPost content in
  match err with
  | None => (MsgTypePost, postPayload, None)
  | Some _ =>
      let '(payload, err) := Marshal (VMap [("text", VString content)]) in
      match err with
      | Some e => ("", "", Some e)
      | None => (MsgTypeText, payload, None)
      end
  end.

End Encoding.

(** ** The loop of [markdownToFeishuPost] read as two stages

    The specification describes the loop as a block splitter followed by
    an assembler.  [splitBlocks] has the branches of [postLoop] and records
    which one was taken; [assemble] is what that branch appends.
    [postLoop_blocks] below shows that the two stages together are the
    loop. *)

Inductive block : Type :=
| FencedCode (codeLines : list string)
| Heading (text : string)
| Blank
| Normal (line : string).

Fixpoint splitBlocks (lines : list string) : list block :=
  match lines with
  | [] => []
  | line :: rest =>
      if isFence line then
        (fix collect (ls : list string) (codeLines : list string) : list block :=
           match ls with
           | [] => [FencedCode codeLines]
           | l :: ls' =>
               if isFence l
               then FencedCode codeLines :: splitBlocks ls'
               else collect ls' (codeLines ++ [l])
           end) rest []
      else
        match FindStringSubmatch reMdHeading line with
        | Some match_ => Heading (nth 1 match_ "") :: splitBlocks rest
        | None =>
            if String.eqb (TrimSpace line) ""
            then Blank :: splitBlocks rest
            else Normal line :: splitBlocks rest
        end
  end.

Definition assemble (b : block) : list (list postElement) :=
  match b with
  | FencedCode codeLines => [codeBlockLine codeLines]
  | Heading text => [[StyledText text "bold"]]
  | Blank => [[PlainText ""]]
  | Normal line =>
      let elements := parseInlineElements line in
      if 0 <? List.length elements then [elements] else []
  end.

(** The block of a line that does not open a code block. *)
Definition classify (line : string) : block :=
  match FindStringSubmatch reMdHeading line with
  | Some match_ => Heading (nth 1 match_ "")
  | None => if String.eqb (TrimSpace line) "" then Blank else Normal line
  end.

(** The lines before the first fence line, and the lines after it. *)
Fixpoint codeLinesOf (ls : list string) : list string :=
  match ls with
  | [] => []
  | l :: ls' => if isFence l then [] else l :: codeLinesOf ls'
  end.

Fixpoint afterFence (ls : list string) : list string :=
  match ls with
  | [] => []
  | l :: ls' => if isFence l then ls' else afterFence ls'
  end.

Definition countFences (ls : list string) : nat :=
  List.length (filter isFence ls).

(** ** Properties of elements *)

Definition textOf (e : postElement) : option string :=
  match get e "text" with
  | Some (VString t) => Some t
  | _ => None
  end.

Definition isLink (e : postElement) : Prop := get e "tag" = Some (VString "a").

Definition hasStyle (e : postElement) (st : string) : Prop :=
  exists l, get e "style" = Some (VSlice l) /\ In (VString st) l.

(** What the inline loop appends: a plain run, a link or a run with one of
    three styles, always with text. *)
Inductive inlineElement : postElement -> Prop :=
| IsPlain t : t <> "" -> inlineElement (PlainText t)
| IsLink t h : t <> "" -> h <> "" -> inlineElement (Link t h)
| IsStyled t st :
    t <> "" -> In st ["code_block"; "bold"; "lineThrough"] ->
    inlineElement (StyledText t st).

(** A match as the loop needs it: a span of at least three bytes inside
    [remaining], one of the four kinds, with text in every group. *)
Record wellFormed (remaining : string) (m : inlineMatch) : Prop := {
  wf_span : start m + 3 <= end_ m;
  wf_bound : end_ m <= String.length remaining;
  wf_typ : In (typ m) ["link"; "code"; "bold"; "strike"];
  wf_group0 : group m 0 <> "";
  wf_group1 : typ m = "link" -> group m 1 <> ""
}.

(** ** The five candidates of one iteration, in the order of evaluation *)

Definition candidate (re : regex) (ty : string) (remaining : string)
  : option inlineMatch :=
  match FindStringSubmatchIndex re remaining with
  | Some loc =>
      Some (mkMatch (idx loc 0) (idx loc 1) ty
                    [slice (idx loc 2) (idx loc 3) remaining])
  | None => None
  end.

Definition linkCandidate (remaining : string) : option inlineMatch :=
  match FindStringSubmatchIndex reMdLink remaining with
  | Some loc =>
      Some (mkMatch (idx loc 0) (idx loc 1) "link"
                    [slice (idx loc 2) (idx loc 3) remaining;
                     slice (idx loc 4) (idx loc 5) remaining])
  | None => None
  end.

Definition candidates (remaining : string) : list (option inlineMatch) :=
  [linkCandidate remaining;
   candidate reInlineCode "code" remaining;
   candidate reMdBoldStar "bold" remaining;
   candidate reMdBoldUnder "bold" remaining;
   candidate reMdStrike "strike" remaining].

(** A candidate replaces the current choice when there is none or when it
    starts strictly before it. *)
Definition consider (earliest cand : option inlineMatch) : option inlineMatch :=
  match cand with
  | Some m =>
      match earliest with
      | None => Some m
      | Some m0 => if start m <? start m0 then Some m else earliest
      end
  | None => earliest
  end.

(** [m] is the candidate at index [i], no candidate starts before it, and
    every candidate evaluated before it starts strictly after it. *)
Definition selected (cs : list (option inlineMatch)) (i : nat) (m : inlineMatch)
  : Prop :=
  nth_error cs i = Some (Some m) /\
  forall j m', nth_error cs j = Some (Some m') ->
               start m <= start m' /\ (j < i -> start m < start m').

(** The body of one iteration once [earliest] is known (lines 165-203). *)
Definition step (remaining : string) (elements : list postElement)
           (m : inlineMatch) : list postElement :=
  appendMatched
    (if 0 <? start m
     then elements ++ [PlainText (take (start m) remaining)]
     else elements) m.

(** What the loop uses of an index slice with one group. *)
Definition goodLoc (remaining : string) (loc : list nat) : Prop :=
  idx loc 0 + 3 <= idx loc 1 /\
  idx loc 1 <= String.length remaining /\
  slice (idx loc 2) (idx loc 3) remaining <> "".

(** A run of white space: white-space runes one after the other. *)
Definition spaceRun (s : string) : Prop :=
  exists ws, Forall (fun w => In w whiteSpace) ws /\ s = String.concat "" ws.

(** ** Statements about whole documents *)

(** A post value that carries an empty title next to its content. *)
Definition postWithTitle (v : value) : Prop :=
  exists root zh content,
    v = VMap root /\ get root "zh_cn" = Some (VMap zh) /\
    get zh "title" = Some (VString "") /\ get zh "content" = Some content.

(** No link of the document has empty text, and a run with empty text
    comes from a blank line only. *)
Definition emptyOnlyForBlank (text : string) : Prop :=
  forall b line e,
    In b (splitBlocks (SplitLines text)) -> In line (assemble b) -> In e line ->
    (isLink e -> textOf e <> Some "") /\ (textOf e = Some "" -> b = Blank).

(** A sample encoder that rejects nested values: with it the encoding of
    a post fails and the encoding of the plain-text payload succeeds. *)
Definition flatMarshal (v : value) : string * option string :=
  match v with
  | VMap [(k, VString s)] => (("{" ++ k ++ ":" ++ s ++ "}")%string, None)
  | _ => ("", Some "unsupported value")
  end.

(** ** Measures and shapes of the elements of a line *)

Fixpoint hasByte (c : ascii) (s : string) : bool :=
  match s with
  | EmptyString => false
  | String a s' => Ascii.eqb c a || hasByte c s'
  end.

(** The bytes the five patterns start with. *)
Definition delimiters : list ascii := ["["; "`"; "*"; "_"; "~"]%char.

Definition textLen (e : postElement) : nat :=
  match textOf e with
  | Some t => String.length t
  | None => 0
  end.

(** The bytes of markup an element stands for besides its text: brackets,
    parentheses and target of a link, two backticks of inline code, four
    delimiter bytes of bold or strikethrough. *)
Definition markupLen (e : postElement) : nat :=
  match get e "href", get e "style" with
  | Some (VString h), _ => 4 + String.length h
  | _, Some (VSlice [VString st]) => if String.eqb st "code_block" then 2 else 4
  | _, _ => 0
  end.

Definition sourceLen (elements : list postElement) : nat :=
  list_sum (map (fun e => textLen e + markupLen e) elements).

(** A match with its span and groups spelled out. *)
Inductive exactMatch (remaining : string) : inlineMatch -> Prop :=
| ExLink st t h :
    t <> "" -> h <> "" ->
    allBytes (Not "]") t = true -> allBytes (Not ")") h = true ->
    st + String.length t + String.length h + 4 <= String.length remaining ->
    exactMatch remaining
      (mkMatch st (st + String.length t + String.length h + 4) "link" [t; h])
| ExCode st t :
    t <> "" -> allBytes (Not "`") t = true ->
    st + String.length t + 2 <= String.length remaining ->
    exactMatch remaining (mkMatch st (st + String.length t + 2) "code" [t])
| ExDelimited st ty t :
    In ty ["bold"; "strike"] ->
    t <> "" -> allBytes anyNotNL t = true ->
    st + String.length t + 4 <= String.length remaining ->
    exactMatch remaining (mkMatch st (st + String.length t + 4) ty [t]).

(** The elements of a line with what their texts cannot contain. *)
Inductive strictElement : postElement -> Prop :=
| SPlain t : t <> "" -> strictElement (PlainText t)
| SLink t h :
    t <> "" -> h <> "" ->
    hasByte "]" t = false -> hasByte ")" h = false ->
    strictElement (Link t h)
| SCode t :
    t <> "" -> hasByte "`" t = false -> strictElement (StyledText t "code_block")
| SBold t :
    t <> "" -> hasByte newline t = false -> strictElement (StyledText t "bold")
| SStrike t :
    t <> "" -> hasByte newline t = false ->
    strictElement (StyledText t "lineThrough").

(** ** The inbound side of the channel *)

(** [strings.ReplaceAll(s, old, "")]: the occurrences of [old] are found
    from left to right, each search starting after the previous occurrence,
    and left out.  With an empty [old] Go returns [s] as it is, since the
    old and the new string are equal. *)
Fixpoint removeFrom (old : string) (skip : nat) (s : string) : string :=
  match s with
  | EmptyString => EmptyString
  | String c s' =>
      match skip with
      | S k => removeFrom old k s'
      | 0 =>
          if HasPrefix s old
          then removeFrom old (String.length old - 1) s'
          else String c (removeFrom old 0 s')
      end
  end.

Definition RemoveAll (s old : string) : string :=
  if String.eqb old "" then s else removeFrom old 0 s.

(** The structs of the Lark SDK, with the fields the package reads.  A
    pointer is an [option]. *)
Module larkim.

Record UserId : Type := {
  UserId_ : option string;
  OpenId : option string;
  UnionId : option string
}.

Record EventSender : Type := {
  SenderId : option UserId;
  TenantKey : option string
}.

Record MentionEvent : Type := {
  Key : option string;
  Id : option UserId
}.

Record EventMessage : Type := {
  MessageId : option string;
  ChatId : option string;
  ChatType : option string;
  MessageType : option string;
  Content : option string;
  Mentions : list (option MentionEvent)
}.

Record P2MessageReceiveV1Data : Type := {
  Sender : option EventSender;
  Message : option EventMessage
}.

Record P2MessageReceiveV1 : Type := {
  Event : option P2MessageReceiveV1Data
}.

Definition FileTypeOpus : string := "opus".
Definition FileTypeMp4 : string := "mp4".
Definition FileTypePdf : string := "pdf".
Definition FileTypeDoc : string := "doc".
Definition FileTypeXls : string := "xls".
Definition FileTypePpt : string := "ppt".
Definition FileTypeStream : string := "stream".

End larkim.

Import larkim.

(** [p != nil && *p != ""] *)
Definition nonEmpty (p : option string) : bool :=
  match p with
  | Some s => negb (String.eqb s "")
  | None => false
  end.

Definition deref (p : option string) : string :=
  match p with Some s => s | None => "" end.

Definition extractFeishuSenderID (sender : option EventSender) : string :=
  match sender with
  | None => ""
  | Some sender =>
      match SenderId sender with
      | None => ""
      | Some id =>
          if nonEmpty (UserId_ id) then deref (UserId_ id)
          else if nonEmpty (OpenId id) then deref (OpenId id)
          else if nonEmpty (UnionId id) then deref (UnionId id)
          else ""
      end
  end.

(** [mention.Id != nil && mention.Id.OpenId != nil], with the open id. *)
Definition mentionOpenId (mention : MentionEvent) : option string :=
  match Id mention with
  | Some id => OpenId id
  | None => None
  end.

(** The loop of [isBotMentioned]. *)
Fixpoint mentionLoop (botOpenID : string) (mentions : list (option MentionEvent))
  : bool :=
  match mentions with
  | [] => false
  | None :: rest => mentionLoop botOpenID rest
  | Some mention :: rest =>
      if negb (String.eqb botOpenID "") &&
         match mentionOpenId mention with
         | Some openId => String.eqb openId botOpenID
         | None => false
         end
      then true
      else if String.eqb botOpenID "" &&
              match Key mention, mentionOpenId mention with
              | Some _, Some _ => true
              | _, _ => false
              end
      then true
      else mentionLoop botOpenID rest
  end.

Definition isBotMentioned (botOpenID : string) (message : option EventMessage)
  : bool :=
  match message with
  | None => false
  | Some message =>
      match Mentions message with
      | [] => false
      | mentions => mentionLoop botOpenID mentions
      end
  end.

(** The value of [isBotMention] for one mention (lines 777-783). *)
Definition isBotMention (botOpenID : string) (mention : MentionEvent) : bool :=
  match mentionOpenId mention with
  | Some openId =>
      if negb (String.eqb botOpenID "") then String.eqb openId botOpenID
      else true
  | None => false
  end.

(** The loop of [stripBotMention], on the content so far. *)
Fixpoint stripLoop (botOpenID : string) (mentions : list (option MentionEvent))
         (content : string) : string :=
  match mentions with
  | [] => content
  | None :: rest => stripLoop botOpenID rest content
  | Some mention :: rest =>
      match Key mention with
      | None => stripLoop botOpenID rest content
      | Some key =>
          if isBotMention botOpenID mention
          then stripLoop botOpenID rest (RemoveAll content key)
          else stripLoop botOpenID rest content
      end
  end.

Definition stripBotMention (botOpenID : string) (content : string)
           (message : option EventMessage) : string :=
  match message with
  | None => content
  | Some message =>
      match Mentions message with
      | [] => content
      | mentions => TrimSpace (stripLoop botOpenID mentions content)
      end
  end.

(** [bus.Peer] and [bus.SenderInfo], and the arguments with which
    [handleMessageReceive] calls [HandleMessage]. *)
Record Peer : Type := { Kind : string; ID : string }.

Record SenderInfo : Type := {
  Platform : string;
  PlatformID : string;
  CanonicalID : string
}.

Record Inbound : Type := {
  in_peer : Peer;
  in_messageID : string;
  in_senderID : string;
  in_chatID : string;
  in_content : string;
  in_metadata : list (string * string);
  in_sender : SenderInfo
}.

Section Receive.

(** [json.Unmarshal] into a struct with the single field [text]: the
    field on success ([""] when the payload has no such key), nothing on
    error. *)
Variable UnmarshalText : string -> option string.

Definition extractFeishuMessageContent (message : option EventMessage) : string :=
  match message with
  | None => ""
  | Some message =>
      match Content message with
      | None => ""
      | Some content =>
          if String.eqb content "" then ""
          else
            match MessageType message with
            | Some ty =>
                if String.eqb ty MsgTypeText
                then match UnmarshalText content with
                     | Some text => text
                     | None => content
                     end
                else content
            | None => content
            end
      end
  end.

(** The field [botOpenID] of the channel, the helper [stringValue] of the
    package and the methods of [BaseChannel] and of the [identity] package
    that [handleMessageReceive] calls; none of them is in this file. *)
Variable botOpenID : string.
Variable stringValue : option string -> string.
Variable ShouldRespondInGroup : bool -> string -> bool * string.
Variable IsAllowedSender : SenderInfo -> bool.
Variable BuildCanonicalID : string -> string -> string.

(** [metadata[k] = v]; the three keys written are different. *)
Definition setKey (k v : string) (metadata : list (string * string))
  : list (string * string) := metadata ++ [(k, v)].

(** [handleMessageReceive]: the arguments of the call of [HandleMessage],
    or nothing when the function returns before it.  The error returned is
    nil on every path. *)
Definition handleMessageReceive (event : option P2MessageReceiveV1)
  : option Inbound :=
  match event with
  | None => None
  | Some event =>
  match Event event with
  | None => None
  | Some ev =>
  match Message ev with
  | None => None
  | Some message =>
      let sender := Sender ev in
      let chatID := stringValue (ChatId message) in
      if String.eqb chatID "" then None else
      let senderID := extractFeishuSenderID sender in
      let senderID := if String.eqb senderID "" then "unknown" else senderID in
      let content := extractFeishuMessageContent (Some message) in
      let content := if String.eqb content "" then "[empty message]" else content in
      let metadata : list (string * string) := [] in
      let messageID := "" in
      let messageID :=
        if negb (String.eqb (stringValue (MessageId message)) "")
        then stringValue (MessageId message) else messageID in
      let metadata :=
        if negb (String.eqb (stringValue (MessageType message)) "")
        then setKey "message_type" (stringValue (MessageType message)) metadata
        else metadata in
      let metadata :=
        if negb (String.eqb (stringValue (ChatType message)) "")
        then setKey "chat_type" (stringValue (ChatType message)) metadata
        else metadata in
      let metadata :=
        match sender with
        | Some sender =>
            match TenantKey sender with
            | Some key => setKey "tenant_key" key metadata
            | None => metadata
            end
        | None => metadata
        end in
      let chatType := stringValue (ChatType message) in
      let decided : option (Peer * string) :=
        if String.eqb chatType "p2p"
        then Some ({| Kind := "direct"; ID := senderID |}, content)
        else
          let peer := {| Kind := "group"; ID := chatID |} in
          let isMentioned := isBotMentioned botOpenID (Some message) in
          let content :=
            if isMentioned then stripBotMention botOpenID content (Some message)
            else content in
          let '(respond, cleaned) := ShouldRespondInGroup isMentioned content in
          if negb respond then None else Some (peer, cleaned) in
      match decided with
      | None => None
      | Some (peer, content) =>
          let senderInfo :=
            {| Platform := "feishu"; PlatformID := senderID;
               CanonicalID := BuildCanonicalID "feishu" senderID |} in
          if negb (IsAllowedSender senderInfo) then None
          else Some {| in_peer := peer; in_messageID := messageID;
                       in_senderID := senderID; in_chatID := chatID;
                       in_content := content; in_metadata := metadata;
                       in_sender := senderInfo |}
      end
  end end end.

End Receive.

(** ** File types and the [send_file] tool *)

Section Files.

(** [os.IsPathSeparator], which depends on the operating system. *)
Variable IsPathSeparator : ascii -> bool.

(** The loop of [filepath.Ext], with [n] one more than its index [i]. *)
Fixpoint extLoop (path : string) (n : nat) : string :=
  match n with
  | 0 => ""
  | S i =>
      match String.get i path with
      | Some c =>
          if IsPathSeparator c then ""
          else if Ascii.eqb c "." then drop i path
          else extLoop path i
      | None => ""
      end
  end.

Definition Ext (path : string) : string := extLoop path (String.length path).

(** A name part: no dot and no path separator. *)
Definition namePart (e : string) : bool :=
  allBytes (fun c => negb (Ascii.eqb c ".") && negb (IsPathSeparator c)) e.

Definition isASCII (c : ascii) : bool := nat_of_ascii c <? 128.

Definition isUpper (c : ascii) : bool :=
  (nat_of_ascii "A" <=? nat_of_ascii c) && (nat_of_ascii c <=? nat_of_ascii "Z").

Definition lowerByte (c : ascii) : ascii :=
  if isUpper c then ascii_of_nat (nat_of_ascii c + 32) else c.

Fixpoint asciiLower (s : string) : string :=
  match s with
  | EmptyString => EmptyString
  | String c s' => String (lowerByte c) (asciiLower s')
  end.

(** [strings.Map(unicode.ToLower, s)], the path [strings.ToLower] takes for
    a string with a byte outside ASCII. *)
Variable unicodeLower : string -> string.

(** [strings.ToLower] *)
Definition ToLower (s : string) : string :=
  if allBytes isASCII s then asciiLower s else unicodeLower s.

Definition inferFeishuFileType (filename : string) : string :=
  let ext := ToLower (Ext filename) in
  if String.eqb ext ".opus" || String.eqb ext ".ogg" then FileTypeOpus
  else if String.eqb ext ".mp4" then FileTypeMp4
  else if String.eqb ext ".pdf" then FileTypePdf
  else if String.eqb ext ".doc" || String.eqb ext ".docx" then FileTypeDoc
  else if String.eqb ext ".xls" || String.eqb ext ".xlsx" then FileTypeXls
  else if String.eqb ext ".ppt" || String.eqb ext ".pptx" then FileTypePpt
  else FileTypeStream.

(** [mime.TypeByExtension], which reads the tables of the system. *)
Variable TypeByExtension : string -> string.

Definition inferContentType (filename : string) : string :=
  let ext := ToLower (Ext filename) in
  if negb (String.eqb (TypeByExtension ext) "") then TypeByExtension ext
  else if String.eqb ext ".png" then "image/png"
  else if String.eqb ext ".jpg" || String.eqb ext ".jpeg" then "image/jpeg"
  else if String.eqb ext ".gif" then "image/gif"
  else if String.eqb ext ".webp" then "image/webp"
  else if String.eqb ext ".svg" then "image/svg+xml"
  else if String.eqb ext ".pdf" then "application/pdf"
  else if String.eqb ext ".mp4" then "video/mp4"
  else if String.eqb ext ".mp3" then "audio/mpeg"
  else if String.eqb ext ".ogg" then "audio/ogg"
  else "application/octet-stream".

(** What [os.Stat] answers: an error, which [os.IsNotExist] recognizes or
    not, with its text, or the file information, of which the tool reads
    [IsDir]. *)
Inductive StatResult : Type :=
| StatError (notExist : bool) (text : string)
| StatInfo (isDir : bool).

(** [media.MediaMeta] and the [Store] method of [media.MediaStore]: the
    reference, or the text of the error. *)
Record MediaMeta : Type := {
  Filename : string;
  ContentType : string;
  Source : string
}.

Definition MediaStore : Type := string -> MediaMeta -> string -> string + string.

Record SendFileTool : Type := {
  workingDir : string;
  restrictToWorkspace : bool;
  mediaStore : option MediaStore;
  channel : string;
  chatID : string
}.

(** The results of a tool.  [ErrorResult] is a function of the package that
    is declared in another file; it is kept as a constructor. *)
Inductive ToolResult : Type :=
| ErrorResult (message : string)
| Sent (ForLLM : string) (Silent : bool) (Media : list string).

(** [filepath.IsAbs], [filepath.Join], [filepath.Base] and [os.Stat], the
    function [isWithinWorkspace] of the package, and the decimal digits of
    [time.Now().UnixNano()]. *)
Variable IsAbs : string -> bool.
Variable Join : string -> string -> string.
Variable Base : string -> string.
Variable Stat : string -> StatResult.
Variable isWithinWorkspace : string -> string -> bool.
Variable UnixNano : string.

(** The path [Execute] works on once relative paths are resolved. *)
Definition resolvePath (t : SendFileTool) (path : string) : string :=
  if negb (IsAbs path) && negb (String.eqb (workingDir t) "")
  then Join (workingDir t) path
  else path.

Definition Execute (t : SendFileTool) (args : list (string * value)) : ToolResult :=
  match get args "path" with
  | Some (VString path) =>
      if String.eqb path "" then ErrorResult "path is required"
      else
        let path := resolvePath t path in
        match Stat path with
        | StatError notExist text =>
            if notExist then ErrorResult ("file not found: " ++ path)
            else ErrorResult ("cannot access file: " ++ text)
        | StatInfo isDir =>
            if isDir then ErrorResult "path is a directory, not a file"
            else if restrictToWorkspace t && negb (String.eqb (workingDir t) "") &&
                    negb (isWithinWorkspace path (workingDir t))
            then ErrorResult "file is outside the workspace"
            else
              match mediaStore t with
              | None =>
                  ErrorResult
                    "media store not available — this channel may not support file sending"
              | Some store =>
                  let filename := Base path in
                  let contentType := inferContentType filename in
                  let scope :=
                    ("send_file:" ++ channel t ++ ":" ++ chatID t ++ ":" ++ UnixNano)%string in
                  match store path
                              {| Filename := filename; ContentType := contentType;
                                 Source := "tool:send_file" |} scope with
                  | inr text => ErrorResult ("failed to register file: " ++ text)
                  | inl ref =>
                      Sent ("File '" ++ filename ++ "' sent to user successfully")
                           false [ref]
                  end
              end
        end
  | _ => ErrorResult "path is required"
  end.

End Files.

(** * Proofs *)

(** ** Byte strings *)

Section StringFacts.

Lemma append_nil_r (s : string) : (s ++ "")%string = s.
Proof. induction s as [|a s IH]; simpl; [reflexivity | now rewrite IH]. Qed.

Lemma append_assoc (a b c : string) :
  ((a ++ b) ++ c)%string = (a ++ (b ++ c))%string.
Proof. induction a as [|x a IH]; simpl; [reflexivity | now rewrite IH]. Qed.

Lemma length_append (a b : string) :
  String.length (a ++ b) = String.length a + String.length b.
Proof. induction a as [|x a IH]; simpl; [reflexivity | now rewrite IH]. Qed.

Lemma length_zero (s : string) : String.length s = 0 -> s = "".
Proof. destruct s; simpl; [reflexivity | discriminate]. Qed.

Lemma length_pos (s : string) : s <> "" -> 0 < String.length s.
Proof. destruct s; simpl; [congruence | lia]. Qed.

Lemma drop_append (a b : string) : drop (String.length a) (a ++ b) = b.
Proof. induction a as [|x a IH]; simpl; [now destruct b | exact IH]. Qed.

Lemma take_append (a b : string) : take (String.length a) (a ++ b) = a.
Proof. induction a as [|x a IH]; simpl; [now destruct b | now rewrite IH]. Qed.

Lemma take_length (s : string) : take (String.length s) s = s.
Proof. induction s as [|a s IH]; simpl; [reflexivity | now rewrite IH]. Qed.

Lemma length_drop (n : nat) (s : string) :
  String.length (drop n s) = String.length s - n.
Proof.
  revert s; induction n as [|n IH]; intros [|a s]; simpl; try reflexivity.
  apply IH.
Qed.

Lemma length_take (n : nat) (s : string) :
  String.length (take n s) = Nat.min n (String.length s).
Proof.
  revert s; induction n as [|n IH]; intros [|a s]; simpl; try reflexivity.
  now rewrite IH.
Qed.

Lemma take_drop (n : nat) (s : string) : (take n s ++ drop n s)%string = s.
Proof.
  revert s; induction n as [|n IH]; intros [|a s]; simpl; try reflexivity.
  now rewrite IH.
Qed.

(** [s[|a| : |a|+|b|]] of [a ++ b ++ c] is [b]. *)
Lemma slice_append (a b c : string) :
  slice (String.length a) (String.length a + String.length b) (a ++ (b ++ c)) = b.
Proof.
  unfold slice. rewrite drop_append.
  replace (String.length a + String.length b - String.length a)
    with (String.length b) by lia.
  apply take_append.
Qed.

Lemma take_nonempty (n : nat) (s : string) :
  0 < n -> s <> "" -> take n s <> "".
Proof. destruct n, s; simpl; try lia; congruence. Qed.

Lemma prefix_append (p s : string) :
  String.prefix p s = true -> exists t, s = (p ++ t)%string.
Proof.
  revert s; induction p as [|a p IH]; intros s H.
  - now exists s.
  - destruct s as [|b s]; simpl in H; [discriminate|].
    destruct (ascii_dec a b) as [->|]; [|discriminate].
    destruct (IH _ H) as [t ->]. now exists t.
Qed.

End StringFacts.

(** ** The backtracking matcher only reports what [Matches] allows *)

Section RegexpFacts.

Lemma rep_sound {R} p greedy (k : string -> nat -> option R) s :
  forall pos lo hi res,
    rep p greedy k s pos lo hi = Some res ->
    exists w s',
      s = (w ++ s')%string /\ allBytes p w = true /\
      lo <= String.length w /\ within hi (String.length w) /\
      k s' (pos + String.length w) = Some res.
Proof.
  induction s as [|a s IH]; intros pos lo hi res H.
  - assert (Hk : (if Nat.eqb lo 0 then k "" pos else None) = Some res).
    { simpl in H. unfold orElse in H.
      destruct greedy; destruct (if Nat.eqb lo 0 then k "" pos else None);
        congruence. }
    destruct (Nat.eqb_spec lo 0) as [->|]; [|discriminate].
    exists "", "". simpl. rewrite Nat.add_0_r.
    repeat split; auto. destruct hi; simpl; lia.
  - assert (Hcases :
      (Nat.eqb lo 0 = true /\ k (String a s) pos = Some res) \/
      (p a = true /\ atLimit hi = false /\
       rep p greedy k s (S pos) (pred lo) (option_map pred hi) = Some res)).
    { simpl in H. unfold orElse in H.
      destruct greedy;
        destruct (p a); destruct (atLimit hi); simpl in H;
        destruct (Nat.eqb lo 0); simpl in H;
        try discriminate; auto;
        destruct (rep _ _ _ s _ _ _) eqn:E; auto;
        destruct (k (String a s) pos) eqn:E'; auto; discriminate. }
    destruct Hcases as [[Hlo Hk] | (Hp & Hlim & Hrec)].
    + apply Nat.eqb_eq in Hlo; subst lo.
      exists "", (String a s). simpl. rewrite Nat.add_0_r.
      repeat split; auto. destruct hi; simpl; lia.
    + destruct (IH _ _ _ _ Hrec) as (w & s' & -> & Hall & Hlen & Hhi & Hk).
      exists (String a w), s'. simpl. rewrite Hp, Hall.
      replace (pos + S (String.length w)) with (S pos + String.length w) by lia.
      repeat split; auto; try lia.
      destruct hi as [[|h]|]; simpl in *; try discriminate; auto; lia.
Qed.

Lemma bt_sound {R} r :
  forall (k : string -> nat -> caps -> option R) s pos c res,
    bt r s pos c k = Some res ->
    exists s' pos' c', Matches r s pos c s' pos' c' /\ k s' pos' c' = Some res.
Proof.
  induction r as [|p|r1 IH1 r2 IH2|r1 IH1 r2 IH2|p lo hi g|n r IH| |];
    intros k s pos c res H; simpl in H.
  - exists s, pos, c. split; [constructor | exact H].
  - destruct s as [|a s]; [discriminate|].
    destruct (p a) eqn:Hp; [|discriminate].
    exists s, (S pos), c. split; [now constructor | exact H].
  - destruct (IH1 _ _ _ _ _ H) as (s1 & p1 & c1 & M1 & H1).
    destruct (IH2 _ _ _ _ _ H1) as (s2 & p2 & c2 & M2 & H2).
    exists s2, p2, c2. split; [econstructor; eassumption | exact H2].
  - unfold orElse in H. destruct (bt r1 s pos c k) eqn:E.
    + injection H as <-.
      destruct (IH1 _ _ _ _ _ E) as (s1 & p1 & c1 & M1 & H1).
      exists s1, p1, c1. split; [now apply MAltL | exact H1].
    + destruct (IH2 _ _ _ _ _ H) as (s1 & p1 & c1 & M1 & H1).
      exists s1, p1, c1. split; [now apply MAltR | exact H1].
  - destruct (rep_sound _ _ _ _ _ _ _ _ H) as (w & s' & -> & Hall & Hlo & Hhi & Hk).
    exists s', (pos + String.length w), c. split; [now constructor | exact Hk].
  - destruct (IH _ _ _ _ _ H) as (s1 & p1 & c1 & M1 & H1).
    exists s1, p1, ((n, (pos, p1)) :: c1). split; [now constructor | exact H1].
  - destruct (Nat.eqb_spec pos 0) as [->|]; [|discriminate].
    exists s, 0, c. split; [constructor | exact H].
  - destruct s; [|discriminate].
    exists "", pos, c. split; [constructor | exact H].
Qed.

(** A match found from offset [pos] starts at some offset [pos + |pre|]
    of the text and is a run of the matcher on what follows [pre]. *)
Lemma findFrom_sound re s :
  forall pos loc,
    findFrom re s pos = Some loc ->
    exists pre suf s' e c,
      s = (pre ++ suf)%string /\
      Matches re suf (pos + String.length pre) [] s' e c /\
      loc = (pos + String.length pre) :: e ::
            flat_map (groupLoc c) (seq 1 (numSubexp re)).
Proof.
  induction s as [|a s IH]; intros pos loc H; simpl in H.
  - destruct (bt re "" pos [] accept) as [[e c]|] eqn:E; [|discriminate].
    injection H as <-.
    destruct (bt_sound _ _ _ _ _ _ E) as (s' & e' & c' & M & Hk).
    injection Hk as -> ->.
    exists "", "", s', e, c. simpl. rewrite Nat.add_0_r. auto.
  - destruct (bt re (String a s) pos [] accept) as [[e c]|] eqn:E.
    + injection H as <-.
      destruct (bt_sound _ _ _ _ _ _ E) as (s' & e' & c' & M & Hk).
      injection Hk as -> ->.
      exists "", (String a s), s', e, c. simpl. rewrite Nat.add_0_r. auto.
    + destruct (IH _ _ H) as (pre & suf & s' & e & c & -> & M & ->).
      exists (String a pre), suf, s', e, c. simpl.
      replace (pos + S (String.length pre)) with (S pos + String.length pre) by lia.
      auto.
Qed.

(** A match consumes a front part of the text. *)
Lemma Matches_span r s pos c s' pos' c' :
  Matches r s pos c s' pos' c' ->
  exists w, s = (w ++ s')%string /\ pos' = pos + String.length w.
Proof.
  induction 1.
  - exists "". simpl. split; [reflexivity | lia].
  - exists (String a ""). simpl. split; [reflexivity | lia].
  - destruct IHMatches1 as (w1 & -> & ->), IHMatches2 as (w2 & -> & ->).
    exists (w1 ++ w2)%string. rewrite append_assoc, length_append.
    split; [reflexivity | lia].
  - assumption.
  - assumption.
  - exists w. auto.
  - assumption.
  - exists "". auto.
  - exists "". simpl. split; [reflexivity | lia].
Qed.








End RegexpFacts.

(** ** What the patterns of the converter match *)

Ltac inv H := inversion H; subst; clear H.

Ltac inv_matches :=
  repeat match goal with
  | H : Matches (Cat _ _) _ _ _ _ _ _ |- _ => inv H
  | H : Matches (Class _) _ _ _ _ _ _ |- _ => inv H
  | H : Matches (Lit _) _ _ _ _ _ _ |- _ => inv H
  | H : Matches (Group _ _) _ _ _ _ _ _ |- _ => inv H
  | H : Matches (Rep _ _ _ _) _ _ _ _ _ _ |- _ => inv H
  | H : Matches (Plus _) _ _ _ _ _ _ |- _ => inv H
  | H : Matches (PlusLazy _) _ _ _ _ _ _ |- _ => inv H
  | H : Matches Eps _ _ _ _ _ _ |- _ => inv H
  | H : Matches Eol _ _ _ _ _ _ |- _ => inv H
  | H : Matches Bol _ _ _ _ _ _ |- _ => inv H
  | H : Ascii.eqb _ _ = true |- _ => apply Ascii.eqb_eq in H; subst
  end.

Ltac loc_eq := cbn; repeat (f_equal; try lia).

Ltac len :=
  repeat first [rewrite length_append | progress simpl String.length]; try lia.

Section PatternFacts.

Lemma nonempty_of_length (w : string) : 1 <= String.length w -> w <> "".
Proof. destruct w; simpl; [lia | congruence]. Qed.

Lemma code_match remaining loc :
  FindStringSubmatchIndex reInlineCode remaining = Some loc ->
  exists pre t post,
    remaining = (pre ++ "`" ++ t ++ "`" ++ post)%string /\ t <> "" /\
    allBytes (Not "`") t = true /\
    loc = [String.length pre; String.length pre + String.length t + 2;
           String.length pre + 1; String.length pre + 1 + String.length t].
Proof.
  intros H. apply findFrom_sound in H.
  destruct H as (pre & suf & s' & e & c & -> & M & ->).
  unfold reInlineCode in M. simpl in M. inv_matches.
  match goal with
  | Ht : allBytes _ ?t = true |- _ => exists pre, t, s'
  end.
  repeat split; auto using nonempty_of_length. loc_eq.
Qed.

Lemma link_match remaining loc :
  FindStringSubmatchIndex reMdLink remaining = Some loc ->
  exists pre t h post,
    remaining = (pre ++ "[" ++ t ++ "](" ++ h ++ ")" ++ post)%string /\
    t <> "" /\ h <> "" /\
    allBytes (Not "]") t = true /\ allBytes (Not ")") h = true /\
    loc = [String.length pre;
           String.length pre + String.length t + String.length h + 4;
           String.length pre + 1; String.length pre + 1 + String.length t;
           String.length pre + String.length t + 3;
           String.length pre + String.length t + 3 + String.length h].
Proof.
  intros H. apply findFrom_sound in H.
  destruct H as (pre & suf & s' & e & c & -> & M & ->).
  unfold reMdLink in M. simpl in M. inv_matches.
  match goal with
  | Ht : allBytes (Not "]") ?t = true, Hh : allBytes (Not ")") ?h = true |- _ =>
      exists pre, t, h, s'
  end.
  repeat split; auto using nonempty_of_length. loc_eq.
Qed.

(** The three patterns [dd(.+?)dd]. *)
Lemma delimited_match (d : ascii) remaining loc :
  FindStringSubmatchIndex
    (Seq [Lit d; Lit d; Group 1 (PlusLazy anyNotNL); Lit d; Lit d])
    remaining = Some loc ->
  exists pre t post,
    remaining = (pre ++ String d (String d (t ++ String d (String d post))))%string /\
    t <> "" /\ allBytes anyNotNL t = true /\
    loc = [String.length pre; String.length pre + String.length t + 4;
           String.length pre + 2; String.length pre + 2 + String.length t].
Proof.
  intros H. apply findFrom_sound in H.
  destruct H as (pre & suf & s' & e & c & -> & M & ->).
  simpl in M. inv_matches.
  match goal with
  | Ht : allBytes _ ?t = true |- _ => exists pre, t, s'
  end.
  repeat split; auto using nonempty_of_length. loc_eq.
Qed.

(** A heading line is one to six hashes, white space and a text; the
    text is the second entry of the result. *)
Lemma heading_match line match_ :
  FindStringSubmatch reMdHeading line = Some match_ ->
  exists hashes ws t,
    line = (hashes ++ ws ++ t)%string /\
    allBytes (Ascii.eqb "#") hashes = true /\
    1 <= String.length hashes <= 6 /\
    allBytes perlSpace ws = true /\ 1 <= String.length ws /\
    allBytes anyNotNL t = true /\ t <> "" /\
    match_ = [line; t].
Proof.
  unfold FindStringSubmatch. intros H.
  destruct (FindStringSubmatchIndex reMdHeading line) as [loc|] eqn:F;
    [|discriminate].
  injection H as <-. apply findFrom_sound in F.
  destruct F as (pre & suf & s' & e & c & -> & M & ->).
  unfold reMdHeading in M. simpl in M.
  inv_matches.
  assert (pre = "") as -> by (apply length_zero; lia).
  match goal with
  | Hh : allBytes (Ascii.eqb "#") ?h = true,
    Hs : allBytes perlSpace ?ws = true,
    Ht : allBytes anyNotNL ?t = true |- _ =>
      exists h, ws, t; rename h into hs, ws into sp, t into tx
  end.
  simpl. rewrite !append_nil_r.
  repeat split; auto using nonempty_of_length; try lia.
  f_equal; [|f_equal].
  - unfold slice. simpl drop. rewrite Nat.sub_0_r.
    replace (String.length hs + String.length sp + String.length tx)
      with (String.length (hs ++ sp ++ tx)) by (rewrite !length_append; lia).
    apply take_length.
  - pose proof (slice_append (hs ++ sp) tx "") as S.
    rewrite append_nil_r, append_assoc, length_append in S.
    exact S.
Qed.


End PatternFacts.

(** ** One iteration of the inline loop *)

Section EarliestFacts.

Lemma slice_mid (a b c : string) (lo hi : nat) :
  lo = String.length a -> hi = String.length a + String.length b ->
  slice lo hi (a ++ b ++ c) = b.
Proof. intros -> ->. apply slice_append. Qed.

Lemma code_loc remaining loc :
  FindStringSubmatchIndex reInlineCode remaining = Some loc ->
  goodLoc remaining loc.
Proof.
  intros H. destruct (code_match _ _ H) as (pre & t & post & Hrem & Ht & _ & ->).
  pose proof (length_pos _ Ht).
  unfold goodLoc, idx; simpl nth. repeat split.
  - lia.
  - rewrite Hrem. len.
  - assert (remaining = ((pre ++ "`") ++ t ++ ("`" ++ post))%string) as ->
      by (rewrite Hrem, !append_assoc; reflexivity).
    rewrite slice_mid; auto; len.
Qed.

Lemma delimited_loc (d : ascii) remaining loc :
  FindStringSubmatchIndex
    (Seq [Lit d; Lit d; Group 1 (PlusLazy anyNotNL); Lit d; Lit d])
    remaining = Some loc ->
  goodLoc remaining loc.
Proof.
  intros H.
  destruct (delimited_match _ _ _ H) as (pre & t & post & Hrem & Ht & _ & ->).
  pose proof (length_pos _ Ht).
  unfold goodLoc, idx; simpl nth. repeat split.
  - lia.
  - rewrite Hrem. len.
  - assert (remaining = ((pre ++ String d (String d "")) ++ t ++
                         String d (String d post))%string) as ->
      by (rewrite Hrem, !append_assoc; reflexivity).
    rewrite slice_mid; auto; len.
Qed.

Lemma link_loc remaining loc :
  FindStringSubmatchIndex reMdLink remaining = Some loc ->
  goodLoc remaining loc /\ slice (idx loc 4) (idx loc 5) remaining <> "".
Proof.
  intros H.
  destruct (link_match _ _ H)
    as (pre & t & h & post & Hrem & Ht & Hh & _ & _ & ->).
  pose proof (length_pos _ Ht). pose proof (length_pos _ Hh).
  unfold goodLoc, idx; simpl nth. repeat split.
  - lia.
  - rewrite Hrem. len.
  - assert (remaining = ((pre ++ "[") ++ t ++ ("](" ++ h ++ ")" ++ post))%string)
      as -> by (rewrite Hrem, !append_assoc; reflexivity).
    rewrite slice_mid; auto; len.
  - assert (remaining = ((pre ++ "[" ++ t ++ "](") ++ h ++ (")" ++ post))%string)
      as -> by (rewrite Hrem; repeat first [rewrite append_assoc | progress simpl];
                reflexivity).
    rewrite slice_mid; auto; len.
Qed.

Lemma candidate_wf re ty remaining m :
  (forall loc, FindStringSubmatchIndex re remaining = Some loc ->
               goodLoc remaining loc) ->
  In ty ["code"; "bold"; "strike"] ->
  candidate re ty remaining = Some m -> wellFormed remaining m.
Proof.
  intros Hre Hty H. unfold candidate in H.
  destruct (FindStringSubmatchIndex re remaining) as [loc|] eqn:F; [|discriminate].
  injection H as <-. destruct (Hre _ eq_refl) as (H1 & H2 & H3).
  split; simpl; auto.
  intros ->. simpl in Hty.
  destruct Hty as [E|[E|[E|[]]]]; discriminate E.
Qed.

Lemma linkCandidate_wf remaining m :
  linkCandidate remaining = Some m -> wellFormed remaining m.
Proof.
  unfold linkCandidate. intros H.
  destruct (FindStringSubmatchIndex reMdLink remaining) as [loc|] eqn:F;
    [|discriminate].
  injection H as <-. destruct (link_loc _ _ F) as ((H1 & H2 & H3) & H4).
  split; simpl; auto.
Qed.

Lemma candidates_wf remaining c m :
  In c (candidates remaining) -> c = Some m -> wellFormed remaining m.
Proof.
  unfold candidates. simpl.
  intros [<-|[<-|[<-|[<-|[<-|[]]]]]] H.
  - now apply linkCandidate_wf.
  - apply (candidate_wf _ _ _ _ (code_loc remaining)) in H; simpl; auto.
  - apply (candidate_wf _ _ _ _ (delimited_loc "*" remaining)) in H; simpl; auto.
  - apply (candidate_wf _ _ _ _ (delimited_loc "_" remaining)) in H; simpl; auto.
  - apply (candidate_wf _ _ _ _ (delimited_loc "~" remaining)) in H; simpl; auto.
Qed.

(** The five blocks are a left fold of [consider] over the candidates. *)
Lemma tryPattern_consider re ty remaining earliest :
  tryPattern re ty remaining earliest =
  consider earliest (candidate re ty remaining).
Proof.
  unfold tryPattern, candidate, consider, closer.
  destruct (FindStringSubmatchIndex re remaining) as [loc|]; [|reflexivity].
  destruct earliest as [m0|]; reflexivity.
Qed.

Lemma earliestMatch_fold remaining :
  earliestMatch remaining = fold_left consider (candidates remaining) None.
Proof.
  unfold earliestMatch, candidates. simpl.
  rewrite !tryPattern_consider. unfold linkCandidate.
  destruct (FindStringSubmatchIndex reMdLink remaining); reflexivity.
Qed.


Lemma fold_consider_Some cs :
  forall acc m,
    fold_left consider cs acc = Some m ->
    (acc = Some m /\
     forall j m', nth_error cs j = Some (Some m') -> start m <= start m') \/
    (exists i, selected cs i m /\
               forall m0, acc = Some m0 -> start m < start m0).
Proof.
  induction cs as [|c cs IH]; intros acc m H; simpl in H.
  - left. split; [assumption|]. intros [|j] m' E; discriminate E.
  - destruct (IH _ _ H) as [[Hacc Hle] | (i & [Hi Hsel] & Hlt)].
    + (* the choice after [c] survives the rest *)
      destruct c as [mc|]; simpl in Hacc.
      * destruct acc as [m0|].
        -- destruct (Nat.ltb_spec (start mc) (start m0)) as [L|L].
           ++ injection Hacc as ->. right. exists 0. split.
              ** split; [reflexivity|]. intros [|j] m' E; simpl in E.
                 --- injection E as <-. split; lia.
                 --- split; [eauto | lia].
              ** intros m1 [= <-]. assumption.
           ++ injection Hacc as ->. left. split; [reflexivity|].
              intros [|j] m' E; simpl in E; [injection E as <-; lia | eauto].
        -- injection Hacc as ->. right. exists 0. split.
           ++ split; [reflexivity|]. intros [|j] m' E; simpl in E.
              ** injection E as <-. split; lia.
              ** split; [eauto | lia].
           ++ intros m1 E; discriminate E.
      * left. split; [assumption|].
        intros [|j] m' E; simpl in E; [discriminate E | eauto].
    + (* a later candidate was chosen *)
      right. exists (S i). split.
      * split; [exact Hi|]. intros [|j] m' E; simpl in E.
        -- injection E as ->. simpl in Hlt.
           destruct acc as [m0|].
           ++ destruct (Nat.ltb_spec (start m') (start m0)) as [L|L].
              ** specialize (Hlt _ eq_refl). split; intros; lia.
              ** specialize (Hlt _ eq_refl). split; intros; lia.
           ++ specialize (Hlt _ eq_refl). split; intros; lia.
        -- destruct (Hsel _ _ E) as [A B]. split; [assumption|]. intros; apply B; lia.
      * intros m0 ->. destruct c as [mc|]; simpl in Hlt.
        -- destruct (Nat.ltb_spec (start mc) (start m0)) as [L|L].
           ++ specialize (Hlt _ eq_refl). lia.
           ++ exact (Hlt _ eq_refl).
        -- exact (Hlt _ eq_refl).
Qed.

Lemma earliestMatch_selected remaining m :
  earliestMatch remaining = Some m ->
  exists i, selected (candidates remaining) i m.
Proof.
  rewrite earliestMatch_fold. intros H.
  destruct (fold_consider_Some _ _ _ H) as [[E _] | (i & Hs & _)];
    [discriminate E | eauto].
Qed.

Lemma earliestMatch_wf remaining m :
  earliestMatch remaining = Some m -> wellFormed remaining m.
Proof.
  intros H. destruct (earliestMatch_selected _ _ H) as (i & Hi & _).
  eapply candidates_wf; [|reflexivity].
  eapply nth_error_In; eassumption.
Qed.



End EarliestFacts.

(** ** The inline loop *)

Section LoopFacts.

Lemma eqb_empty (s : string) : s <> "" -> String.eqb s "" = false.
Proof. intros H. now apply String.eqb_neq. Qed.

Lemma appendMatched_wf remaining elements m :
  wellFormed remaining m ->
  exists e, appendMatched elements m = elements ++ [e] /\ inlineElement e.
Proof.
  intros [_ _ Hty Hg0 Hg1]. unfold appendMatched. simpl in Hty.
  destruct Hty as [E|[E|[E|[E|[]]]]]; rewrite <- E in *; simpl;
    eexists; (split; [reflexivity|]); constructor; simpl; auto.
Qed.

Lemma step_spec remaining elements m :
  wellFormed remaining m -> remaining <> "" ->
  exists new, step remaining elements m = elements ++ new /\
              Forall inlineElement new /\ new <> [].
Proof.
  intros Hwf Hne. unfold step.
  destruct (Nat.ltb_spec 0 (start m)) as [L|L].
  - destruct (appendMatched_wf _ (elements ++ [PlainText (take (start m) remaining)])
                               _ Hwf) as (e & -> & He).
    exists [PlainText (take (start m) remaining); e].
    rewrite <- app_assoc. split; [reflexivity|]. split; [|discriminate].
    repeat constructor; auto using take_nonempty.
  - destruct (appendMatched_wf _ elements _ Hwf) as (e & -> & He).
    exists [e]. split; [reflexivity|]. split; [|discriminate].
    repeat constructor; auto.
Qed.

Lemma inlineLoop_unfold fuel remaining elements :
  remaining <> "" ->
  inlineLoop (S fuel) remaining elements =
  match earliestMatch remaining with
  | None => Some (elements ++ [PlainText remaining])
  | Some m => inlineLoop fuel (drop (end_ m) remaining) (step remaining elements m)
  end.
Proof.
  intros Hne. simpl. rewrite (eqb_empty _ Hne). reflexivity.
Qed.

Lemma inlineLoop_empty fuel elements :
  inlineLoop fuel "" elements = Some elements.
Proof. destruct fuel; reflexivity. Qed.

(** Every iteration removes at least three bytes from [remaining]. *)
Lemma remaining_shrinks remaining m :
  earliestMatch remaining = Some m ->
  String.length (drop (end_ m) remaining) + 3 <= String.length remaining.
Proof.
  intros H. destruct (earliestMatch_wf _ _ H) as [Hs Hb _ _ _].
  rewrite length_drop. lia.
Qed.

Lemma inlineLoop_total fuel :
  forall remaining elements,
    String.length remaining <= fuel ->
    exists els, inlineLoop fuel remaining elements = Some els.
Proof.
  induction fuel as [|fuel IH]; intros remaining elements Hlen.
  - rewrite (length_zero remaining) by lia. eexists. apply inlineLoop_empty.
  - destruct (string_dec remaining "") as [->|Hne].
    + eexists. apply inlineLoop_empty.
    + rewrite inlineLoop_unfold by assumption.
      destruct (earliestMatch remaining) as [m|] eqn:E; [|eauto].
      apply IH. pose proof (remaining_shrinks _ _ E). lia.
Qed.

(** Once the fuel covers the length of [remaining], more fuel changes
    nothing. *)
Lemma inlineLoop_fuel fuel :
  forall fuel' remaining elements,
    String.length remaining <= fuel -> String.length remaining <= fuel' ->
    inlineLoop fuel remaining elements = inlineLoop fuel' remaining elements.
Proof.
  induction fuel as [|fuel IH]; intros fuel' remaining elements H H'.
  - rewrite (length_zero remaining) by lia. now rewrite !inlineLoop_empty.
  - destruct (string_dec remaining "") as [->|Hne].
    + now rewrite !inlineLoop_empty.
    + destruct fuel' as [|fuel'].
      { apply length_pos in Hne. lia. }
      rewrite !inlineLoop_unfold by assumption.
      destruct (earliestMatch remaining) as [m|] eqn:E; [|reflexivity].
      pose proof (remaining_shrinks _ _ E). apply IH; lia.
Qed.

Lemma inlineLoop_elements fuel :
  forall remaining elements els,
    inlineLoop fuel remaining elements = Some els ->
    exists new, els = elements ++ new /\ Forall inlineElement new /\
                (remaining <> "" -> new <> []).
Proof.
  induction fuel as [|fuel IH]; intros remaining elements els H.
  - simpl in H. destruct (String.eqb_spec remaining ""); [|discriminate].
    injection H as <-. exists []. rewrite app_nil_r. auto.
  - destruct (string_dec remaining "") as [->|Hne].
    + rewrite inlineLoop_empty in H. injection H as <-.
      exists []. rewrite app_nil_r. auto.
    + rewrite inlineLoop_unfold in H by assumption.
      destruct (earliestMatch remaining) as [m|] eqn:E.
      * destruct (step_spec _ elements _ (earliestMatch_wf _ _ E) Hne)
          as (new & Hstep & Hall & Hnew).
        rewrite Hstep in H.
        destruct (IH _ _ _ H) as (new' & -> & Hall' & _).
        exists (new ++ new'). rewrite app_assoc.
        split; [reflexivity|]. split; [now apply Forall_app|].
        intros _ Eq. apply app_eq_nil in Eq. tauto.
      * injection H as <-. exists [PlainText remaining].
        split; [reflexivity|]. split; [|discriminate].
        repeat constructor. assumption.
Qed.

Lemma bullet_nonempty (s : string) : (bullet ++ s)%string <> "".
Proof. discriminate. Qed.

(** [stripListMarkers] keeps a line with text non-empty. *)
Lemma stripListMarkers_nonempty line :
  TrimSpace line <> "" -> stripListMarkers line <> "".
Proof.
  intros H. unfold stripListMarkers.
  destruct (isNumbered _);
    destruct (HasPrefix (TrimSpace line) "- " || HasPrefix (TrimSpace line) "* ");
    auto using bullet_nonempty.
Qed.

Lemma parseInlineElements_spec line :
  exists els,
    inlineLoop (S (String.length (stripListMarkers line)))
               (stripListMarkers line) [] = Some els /\
    parseInlineElements line = els /\
    Forall inlineElement els /\
    (TrimSpace line <> "" -> els <> []).
Proof.
  destruct (inlineLoop_total (S (String.length (stripListMarkers line)))
                             (stripListMarkers line) []) as [els H]; [lia|].
  exists els. split; [assumption|].
  unfold parseInlineElements. rewrite H. split; [reflexivity|].
  destruct (inlineLoop_elements _ _ _ _ H) as (new & -> & Hall & Hne).
  simpl. split; [assumption|].
  intros Ht. apply Hne. now apply stripListMarkers_nonempty.
Qed.

End LoopFacts.

(** ** White space *)

Section TrimFacts.










End TrimFacts.

(** ** The line loop *)

Section BlockFacts.

Lemma postLoop_fence line rest acc :
  isFence line = true ->
  postLoop (line :: rest) acc =
  postLoop (afterFence rest) (acc ++ [codeBlockLine (codeLinesOf rest)]).
Proof.
  intros Hf. simpl. rewrite Hf.
  match goal with
  | |- ?collect rest [] = _ =>
      assert (H : forall codeLines,
                 collect rest codeLines =
                 postLoop (afterFence rest)
                          (acc ++ [codeBlockLine (codeLines ++ codeLinesOf rest)]))
  end.
  { induction rest as [|l rest IH]; intros codeLines; simpl.
    - now rewrite app_nil_r.
    - destruct (isFence l).
      + now rewrite app_nil_r.
      + rewrite IH, <- app_assoc. reflexivity. }
  apply (H []).
Qed.

Lemma postLoop_line line rest acc :
  isFence line = false ->
  postLoop (line :: rest) acc = postLoop rest (acc ++ assemble (classify line)).
Proof.
  intros Hf. simpl. rewrite Hf. unfold classify.
  destruct (FindStringSubmatch reMdHeading line); [reflexivity|].
  destruct (String.eqb (TrimSpace line) ""); [reflexivity|].
  simpl. destruct (0 <? List.length (parseInlineElements line));
    [reflexivity | now rewrite app_nil_r].
Qed.

Lemma splitBlocks_fence line rest :
  isFence line = true ->
  splitBlocks (line :: rest) =
  FencedCode (codeLinesOf rest) :: splitBlocks (afterFence rest).
Proof.
  intros Hf. simpl. rewrite Hf.
  match goal with
  | |- ?collect rest [] = _ =>
      assert (H : forall codeLines,
                 collect rest codeLines =
                 FencedCode (codeLines ++ codeLinesOf rest)
                 :: splitBlocks (afterFence rest))
  end.
  { induction rest as [|l rest IH]; intros codeLines; simpl.
    - now rewrite app_nil_r.
    - destruct (isFence l).
      + now rewrite app_nil_r.
      + rewrite IH, <- app_assoc. reflexivity. }
  apply (H []).
Qed.

Lemma splitBlocks_line line rest :
  isFence line = false ->
  splitBlocks (line :: rest) = classify line :: splitBlocks rest.
Proof.
  intros Hf. simpl. rewrite Hf. unfold classify.
  destruct (FindStringSubmatch reMdHeading line); [reflexivity|].
  destruct (String.eqb (TrimSpace line) ""); reflexivity.
Qed.

Lemma afterFence_length ls : List.length (afterFence ls) <= List.length ls.
Proof.
  induction ls as [|l ls IH]; simpl; [lia|]. destruct (isFence l); lia.
Qed.

(** The loop is the block splitter followed by the assembler. *)
Lemma postLoop_blocks lines :
  forall acc, postLoop lines acc = acc ++ flat_map assemble (splitBlocks lines).
Proof.
  induction lines as [lines IH] using (induction_ltof1 _ (@List.length string)).
  unfold ltof in IH. intros acc.
  destruct lines as [|line rest].
  - simpl. now rewrite app_nil_r.
  - destruct (isFence line) eqn:Hf.
    + rewrite postLoop_fence, splitBlocks_fence by assumption.
      rewrite IH by (pose proof (afterFence_length rest); simpl; lia).
      simpl. now rewrite <- app_assoc.
    + rewrite postLoop_line, splitBlocks_line by assumption.
      rewrite IH by (simpl; lia).
      simpl. now rewrite <- app_assoc.
Qed.

Lemma contentLinesOf_blocks text :
  contentLinesOf text = flat_map assemble (splitBlocks (SplitLines text)).
Proof. unfold contentLinesOf. now rewrite postLoop_blocks. Qed.

(** Before the first fence line of [pre], appending lines changes
    nothing. *)
Lemma fence_inside pre rest :
  0 < countFences pre ->
  codeLinesOf (pre ++ rest) = codeLinesOf pre /\
  afterFence (pre ++ rest) = afterFence pre ++ rest /\
  countFences pre = S (countFences (afterFence pre)).
Proof.
  unfold countFences.
  induction pre as [|l pre IH]; simpl; [lia|].
  destruct (isFence l); simpl; [auto|].
  intros H. destruct (IH H) as (-> & -> & ->). auto.
Qed.

Lemma no_fence body :
  (forall l, In l body -> isFence l = false) ->
  codeLinesOf body = body /\ afterFence body = [].
Proof.
  induction body as [|l body IH]; simpl; intros H; [auto|].
  rewrite (H l) by auto. destruct IH as [-> ->]; auto.
Qed.

(** After an even number of fence lines the loop is outside every code
    block, and what follows is split on its own. *)
Lemma splitBlocks_app pre :
  forall rest,
    Nat.even (countFences pre) = true ->
    splitBlocks (pre ++ rest) = splitBlocks pre ++ splitBlocks rest.
Proof.
  induction pre as [pre IH] using (induction_ltof1 _ (@List.length string)).
  unfold ltof in IH. intros rest Hev.
  destruct pre as [|line pre]; [reflexivity|].
  rewrite <- app_comm_cons.
  destruct (isFence line) eqn:Hf.
  - rewrite !splitBlocks_fence by assumption.
    unfold countFences in Hev. simpl in Hev. rewrite Hf in Hev.
    simpl List.length in Hev. fold (countFences pre) in Hev.
    assert (Hpos : 0 < countFences pre).
    { destruct (countFences pre); [discriminate Hev | lia]. }
    destruct (fence_inside pre rest Hpos) as (-> & -> & Hc).
    rewrite Hc in Hev. rewrite Nat.even_succ_succ in Hev.
    rewrite IH; [reflexivity | | assumption].
    pose proof (afterFence_length pre). simpl. lia.
  - rewrite !splitBlocks_line by assumption.
    rewrite IH; [reflexivity | simpl; lia |].
    unfold countFences in *. simpl in Hev. now rewrite Hf in Hev.
Qed.

(** The lines already emitted are kept, in front of what the loop adds. *)
Lemma postLoop_acc lines acc :
  postLoop lines acc = acc ++ postLoop lines [].
Proof.
  now rewrite (postLoop_blocks lines acc), (postLoop_blocks lines []).
Qed.

(** Outside a code block the loop treats what follows on its own. *)
Lemma postLoop_app pre rest :
  Nat.even (countFences pre) = true ->
  postLoop (pre ++ rest) [] = postLoop pre [] ++ postLoop rest [].
Proof.
  intros Hev. rewrite !postLoop_blocks. simpl.
  rewrite splitBlocks_app, flat_map_app by assumption. reflexivity.
Qed.

End BlockFacts.

(** ** [TrimSpace] removes the white space around a string and nothing else *)

Section TrimSpaceFacts.

Lemma whiteSpace_nonempty w : In w whiteSpace -> 1 <= String.length w.
Proof.
  intros H. cbv in H.
  repeat (destruct H as [H|H]; [subst w; simpl; lia|]). destruct H.
Qed.

Lemma concat_empty_cons (w : string) (ws : list string) :
  String.concat "" (w :: ws) = (w ++ String.concat "" ws)%string.
Proof. destruct ws; simpl; [now rewrite append_nil_r | reflexivity]. Qed.

Lemma concat_empty_app (ws1 ws2 : list string) :
  String.concat "" (ws1 ++ ws2) =
  (String.concat "" ws1 ++ String.concat "" ws2)%string.
Proof.
  induction ws1 as [|w ws1 IH]; [reflexivity|].
  rewrite <- app_comm_cons, !concat_empty_cons, IH, append_assoc. reflexivity.
Qed.

Lemma spaceRun_nil : spaceRun "".
Proof. exists []. split; [constructor | reflexivity]. Qed.

Lemma spaceRun_cons w s : In w whiteSpace -> spaceRun s -> spaceRun (w ++ s).
Proof.
  intros Hw (ws & Hall & ->). exists (w :: ws).
  split; [now constructor | now rewrite concat_empty_cons].
Qed.

Lemma spaceRun_snoc w s : In w whiteSpace -> spaceRun s -> spaceRun (s ++ w).
Proof.
  intros Hw (ws & Hall & ->). exists (ws ++ [w]). split.
  - apply Forall_app. split; [assumption | constructor; [assumption | constructor]].
  - rewrite concat_empty_app. simpl. reflexivity.
Qed.

Lemma HasSuffix_split s w :
  HasSuffix s w = true ->
  s = (take (String.length s - String.length w) s ++ w)%string.
Proof.
  unfold HasSuffix. intros H. apply andb_prop in H. destruct H as [_ H].
  apply String.eqb_eq in H.
  pose proof (take_drop (String.length s - String.length w) s) as T.
  rewrite H in T. now symmetry.
Qed.

Lemma trimLeft_spec fuel :
  forall s,
    exists a, spaceRun a /\ s = (a ++ trimLeft fuel s)%string /\
              (String.length s <= fuel -> leadingSpace (trimLeft fuel s) = None).
Proof.
  induction fuel as [|fuel IH]; intros s; cbn [trimLeft].
  - exists "". split; [apply spaceRun_nil|]. split; [reflexivity|].
    intros H. now rewrite (length_zero s) by lia.
  - destruct (leadingSpace s) as [w|] eqn:E.
    + apply find_some in E. destruct E as [Hin Hpre].
      destruct (prefix_append _ _ Hpre) as [t ->].
      rewrite drop_append.
      destruct (IH t) as (a & Ha & Ht & Hnone).
      exists (w ++ a)%string. split; [now apply spaceRun_cons|].
      split; [now rewrite append_assoc, <- Ht|].
      intros Hlen. apply Hnone.
      pose proof (whiteSpace_nonempty _ Hin). rewrite length_append in Hlen. lia.
    + exists "". split; [apply spaceRun_nil|]. auto.
Qed.

Lemma trimRight_spec fuel :
  forall s,
    exists b, spaceRun b /\ s = (trimRight fuel s ++ b)%string /\
              (String.length s <= fuel -> trailingSpace (trimRight fuel s) = None).
Proof.
  induction fuel as [|fuel IH]; intros s; cbn [trimRight].
  - exists "". split; [apply spaceRun_nil|]. split; [now rewrite append_nil_r|].
    intros H. now rewrite (length_zero s) by lia.
  - destruct (trailingSpace s) as [w|] eqn:E.
    + apply find_some in E. destruct E as [Hin Hsuf].
      pose proof (HasSuffix_split _ _ Hsuf) as Hs.
      set (t := take (String.length s - String.length w) s) in *.
      destruct (IH t) as (b & Hb & Ht & Hnone).
      exists (b ++ w)%string. split; [now apply spaceRun_snoc|].
      split; [now rewrite <- append_assoc, <- Ht|].
      intros Hlen. apply Hnone.
      pose proof (whiteSpace_nonempty _ Hin).
      rewrite Hs, length_append in Hlen. lia.
    + exists "". split; [apply spaceRun_nil|]. rewrite append_nil_r. auto.
Qed.

Lemma prefix_weaken w r b :
  String.prefix w r = true -> String.prefix w (r ++ b) = true.
Proof.
  intros H. destruct (prefix_append _ _ H) as [t ->].
  rewrite append_assoc. clear H.
  induction w as [|a w IH]; simpl; [now destruct (t ++ b)%string|].
  destruct (ascii_dec a a); [exact IH | congruence].
Qed.

Lemma leadingSpace_prefix r b :
  leadingSpace (r ++ b) = None -> leadingSpace r = None.
Proof.
  intros H. destruct (leadingSpace r) as [w|] eqn:E; [|reflexivity].
  apply find_some in E. destruct E as [Hin Hpre].
  pose proof (find_none _ _ H _ Hin) as Hn. cbv beta in Hn.
  unfold HasPrefix in *. rewrite (prefix_weaken _ _ b Hpre) in Hn. discriminate.
Qed.

(** The result sits inside [s] between two runs of white space and has
    no white space left at either end. *)
Lemma TrimSpace_spec s :
  exists a b,
    spaceRun a /\ spaceRun b /\ s = (a ++ TrimSpace s ++ b)%string /\
    leadingSpace (TrimSpace s) = None /\ trailingSpace (TrimSpace s) = None.
Proof.
  unfold TrimSpace.
  destruct (trimLeft_spec (String.length s) s) as (a & Ha & Hs & Hl).
  specialize (Hl (Nat.le_refl _)).
  set (t := trimLeft (String.length s) s) in *.
  destruct (trimRight_spec (String.length s) t) as (b & Hb & Ht & Hr).
  assert (Hlen : String.length t <= String.length s).
  { pose proof (f_equal String.length Hs) as L.
    rewrite length_append in L. lia. }
  specialize (Hr Hlen).
  exists a, b.
  split; [exact Ha|]. split; [exact Hb|]. split; [now rewrite <- Ht|].
  split; [|exact Hr].
  apply (leadingSpace_prefix _ b). now rewrite <- Ht.
Qed.

End TrimSpaceFacts.

(** ** Documents *)

Section DocumentFacts.

Lemma SplitLines_nonempty text : SplitLines text <> [].
Proof.
  induction text as [|c text IH]; simpl; [discriminate|].
  destruct (Ascii.eqb c newline); [discriminate|].
  destruct (SplitLines text); discriminate.
Qed.

(** The three ways a line that opens no code block is classified. *)
Lemma classify_cases line :
  (exists match_ t,
      FindStringSubmatch reMdHeading line = Some match_ /\
      match_ = [line; t] /\ t <> "" /\ classify line = Heading t) \/
  (FindStringSubmatch reMdHeading line = None /\ TrimSpace line = "" /\
   classify line = Blank) \/
  (FindStringSubmatch reMdHeading line = None /\ TrimSpace line <> "" /\
   classify line = Normal line).
Proof.
  unfold classify.
  destruct (FindStringSubmatch reMdHeading line) as [m|] eqn:E.
  - left. destruct (heading_match _ _ E) as (hs & ws & t & _ & _ & _ & _ & _ & _ & Ht & ->).
    exists [line; t], t. auto.
  - right. destruct (String.eqb_spec (TrimSpace line) ""); auto.
Qed.

Lemma assemble_Normal line :
  TrimSpace line <> "" ->
  assemble (Normal line) = [parseInlineElements line] /\
  parseInlineElements line <> [] /\
  Forall inlineElement (parseInlineElements line).
Proof.
  intros H. destruct (parseInlineElements_spec line) as (els & _ & Hp & Hall & Hne).
  rewrite Hp. specialize (Hne H). unfold assemble. rewrite Hp.
  destruct els; [congruence|]. simpl. auto.
Qed.

(** Where the blocks of a document come from. *)
Lemma splitBlocks_In lines :
  forall b, In b (splitBlocks lines) ->
            (exists codeLines, b = FencedCode codeLines) \/
            (exists line, In line lines /\ isFence line = false /\ b = classify line).
Proof.
  induction lines as [lines IH] using (induction_ltof1 _ (@List.length string)).
  unfold ltof in IH. intros b Hin.
  destruct lines as [|line rest]; [destruct Hin|].
  destruct (isFence line) eqn:Hf.
  - rewrite splitBlocks_fence in Hin by assumption.
    destruct Hin as [<-|Hin]; [eauto|].
    apply IH in Hin; [|pose proof (afterFence_length rest); simpl; lia].
    destruct Hin as [?|(l & Hl & ? & ?)]; [auto|].
    right. exists l. split; [|auto]. right.
    clear - Hl. induction rest as [|x rest IHr]; simpl in *; [destruct Hl|].
    destruct (isFence x); auto.
  - rewrite splitBlocks_line in Hin by assumption.
    destruct Hin as [<-|Hin]; [right; exists line; simpl; auto|].
    apply IH in Hin; [|simpl; lia].
    destruct Hin as [?|(l & Hl & ? & ?)]; [auto|].
    right. exists l. simpl. auto.
Qed.

(** Every block gives exactly one line, and that line has runs. *)
Lemma assemble_one lines b :
  In b (splitBlocks lines) -> exists l, assemble b = [l] /\ l <> [].
Proof.
  intros H. destruct (splitBlocks_In _ _ H) as [[cl ->] | (line & _ & _ & ->)].
  - eexists. split; [reflexivity | discriminate].
  - destruct (classify_cases line)
      as [(m & t & _ & _ & _ & ->) | [(_ & _ & ->) | (_ & Ht & ->)]].
    + eexists. split; [reflexivity | discriminate].
    + eexists. split; [reflexivity | discriminate].
    + destruct (assemble_Normal _ Ht) as (-> & Hne & _). eauto.
Qed.

Lemma contentLinesOf_In text line :
  In line (contentLinesOf text) ->
  exists b, In b (splitBlocks (SplitLines text)) /\ assemble b = [line] /\ line <> [].
Proof.
  rewrite contentLinesOf_blocks. intros H. apply in_flat_map in H.
  destruct H as (b & Hb & Hl). exists b. split; [assumption|].
  destruct (assemble_one _ _ Hb) as (l & E & Hne). rewrite E in Hl |- *.
  destruct Hl as [<-|[]]. auto.
Qed.

Lemma contentLinesOf_nonempty text : contentLinesOf text <> [].
Proof.
  rewrite contentLinesOf_blocks.
  pose proof (SplitLines_nonempty text) as Hs.
  destruct (SplitLines text) as [|line rest]; [congruence|].
  assert (Hb : exists b bs, splitBlocks (line :: rest) = b :: bs).
  { destruct (isFence line) eqn:Hf.
    - rewrite splitBlocks_fence by assumption. eauto.
    - rewrite splitBlocks_line by assumption. eauto. }
  destruct Hb as (b & bs & Hb).
  destruct (assemble_one (line :: rest) b) as (l & E & _).
  { rewrite Hb. now left. }
  rewrite Hb. simpl. rewrite E. discriminate.
Qed.

(** The runs of a block, by kind of block. *)
Lemma block_elements lines b line e :
  In b (splitBlocks lines) -> In line (assemble b) -> In e line ->
  match b with
  | FencedCode codeLines => e = StyledText (JoinLines codeLines) "code_block"
  | Heading t => t <> "" /\ e = StyledText t "bold"
  | Blank => e = PlainText ""
  | Normal _ => inlineElement e
  end.
Proof.
  intros Hb Hl He.
  destruct (splitBlocks_In _ _ Hb) as [[cl ->] | (l & _ & _ & ->)].
  - simpl in Hl. destruct Hl as [<-|[]]. destruct He as [<-|[]]. reflexivity.
  - destruct (classify_cases l)
      as [(m & t & _ & _ & Ht & E) | [(_ & _ & E) | (_ & Ht & E)]];
      rewrite E in *.
    + simpl in Hl. destruct Hl as [<-|[]]. destruct He as [<-|[]]. auto.
    + simpl in Hl. destruct Hl as [<-|[]]. destruct He as [<-|[]]. auto.
    + destruct (assemble_Normal _ Ht) as (Ea & _ & Hall). rewrite Ea in Hl.
      destruct Hl as [<-|[]]. rewrite Forall_forall in Hall. auto.
Qed.

Lemma inlineElement_text e :
  inlineElement e -> exists t, textOf e = Some t /\ t <> "".
Proof. intros [t H|t h H _|t st H _]; exists t; auto. Qed.

Lemma inlineElement_style e st :
  inlineElement e -> hasStyle e st -> In st ["code_block"; "bold"; "lineThrough"].
Proof.
  intros [t H|t h H _|t s H Hs] (l & Hg & Hin); simpl in Hg; try discriminate.
  injection Hg as <-. destruct Hin as [[= <-]|[]]. assumption.
Qed.

Lemma postLoop_normal line rest contentLines :
  isFence line = false ->
  FindStringSubmatch reMdHeading line = None ->
  TrimSpace line <> "" ->
  parseInlineElements line <> [] /\
  (0 <? List.length (parseInlineElements line)) = true /\
  postLoop (line :: rest) contentLines =
    postLoop rest (contentLines ++ [parseInlineElements line]).
Proof.
  intros Hf Hh Ht.
  destruct (assemble_Normal _ Ht) as (Ha & Hne & _).
  split; [assumption|]. split.
  - destruct (parseInlineElements line); [congruence | reflexivity].
  - rewrite postLoop_line by assumption.
    unfold classify. rewrite Hh, (eqb_empty _ Ht), Ha. reflexivity.
Qed.

End DocumentFacts.

(** * The inline tokenizer *)

(** The choice of an iteration is unique: two candidates cannot both be
    selected. *)
Lemma selected_unique cs i j m m' :
  selected cs i m -> selected cs j m' -> i = j /\ m = m'.
Proof.
  intros [Hi Hm] [Hj Hm'].
  destruct (Hm _ _ Hj) as [A B], (Hm' _ _ Hi) as [A' B'].
  assert (i = j) as ->.
  { destruct (Nat.lt_trichotomy i j) as [L|[E|L]]; [|assumption|].
    - specialize (B' L). lia.
    - specialize (B L). lia. }
  split; [reflexivity | congruence].
Qed.



(** C9. [parseInlineElements] terminates on every line: a match of any of
    the five patterns spans at least three bytes, so the match selected in
    an iteration ends after it starts and the remaining text gets strictly
    shorter; with as much fuel as the line has bytes the loop returns, and
    returns the result of [parseInlineElements]. *)
Theorem parseInlineElements_terminates :
  (forall re,
      In re [reMdLink; reInlineCode; reMdBoldStar; reMdBoldUnder; reMdStrike] ->
      forall s loc,
        FindStringSubmatchIndex re s = Some loc ->
        idx loc 0 + 3 <= idx loc 1 /\ idx loc 1 <= String.length s) /\
  (forall remaining m,
      earliestMatch remaining = Some m ->
      start m < end_ m /\
      String.length (drop (end_ m) remaining) < String.length remaining) /\
  (forall line fuel,
      String.length (stripListMarkers line) <= fuel ->
      inlineLoop fuel (stripListMarkers line) [] = Some (parseInlineElements line)).
Proof.
  split; [|split].
  - intros re Hre s loc H. simpl in Hre.
    destruct Hre as [<-|[<-|[<-|[<-|[<-|[]]]]]].
    + destruct (link_loc _ _ H) as ((A & B & _) & _). auto.
    + destruct (code_loc _ _ H) as (A & B & _). auto.
    + destruct (delimited_loc "*" _ _ H) as (A & B & _). auto.
    + destruct (delimited_loc "_" _ _ H) as (A & B & _). auto.
    + destruct (delimited_loc "~" _ _ H) as (A & B & _). auto.
  - intros remaining m H.
    pose proof (remaining_shrinks _ _ H).
    destruct (earliestMatch_wf _ _ H) as [Hs _ _ _ _]. lia.
  - intros line fuel Hlen.
    destruct (parseInlineElements_spec line) as (els & Hloop & -> & _).
    rewrite <- Hloop. apply inlineLoop_fuel; lia.
Qed.

Lemma parseInlineElements_terminates_witness :
  (idx [2; 5; 3; 4] 0 + 3 <= idx [2; 5; 3; 4] 1 /\
   idx [2; 5; 3; 4] 1 <= String.length "a `b` c") /\
  (2 < 5 /\ String.length (drop 5 "a `b` c") < String.length "a `b` c") /\
  inlineLoop 7 (stripListMarkers "a `b` c") [] =
    Some (parseInlineElements "a `b` c").
Proof.
  destruct parseInlineElements_terminates as (H1 & H2 & H3).
  split; [|split].
  - apply (H1 reInlineCode); [simpl; auto | reflexivity].
  - apply (H2 "a `b` c" (mkMatch 2 5 "code" ["b"])). reflexivity.
  - apply (H3 "a `b` c" 7). vm_compute. lia.
Defined.

(** C10. A line that reaches the last branch of the loop (not a fence, not
    a heading, not empty after trimming) gives at least one element: the
    guard [len(elements) > 0] holds and the line contributes exactly one
    line of the document, the elements [parseInlineElements] returns.  The
    loop returns the lines it had, then that one line, then the lines of
    what follows; a text made of the line alone gives a document of exactly
    that line, and inside a text, after lines that leave no code block
    open, the line stands between the lines of what precedes and of what
    follows. *)
Theorem normal_line_gives_one_line line rest contentLines :
  isFence line = false ->
  FindStringSubmatch reMdHeading line = None ->
  TrimSpace line <> "" ->
  parseInlineElements line <> [] /\
  (0 <? List.length (parseInlineElements line)) = true /\
  postLoop (line :: rest) contentLines =
    postLoop rest (contentLines ++ [parseInlineElements line]) /\
  postLoop (line :: rest) contentLines =
    contentLines ++ parseInlineElements line :: postLoop rest [] /\
  List.length (postLoop (line :: rest) contentLines) =
    List.length contentLines + 1 + List.length (postLoop rest []) /\
  (forall text,
      SplitLines text = [line] ->
      contentLinesOf text = [parseInlineElements line]) /\
  (forall text pre,
      SplitLines text = pre ++ line :: rest ->
      Nat.even (countFences pre) = true ->
      contentLinesOf text =
        postLoop pre [] ++ parseInlineElements line :: postLoop rest []).
Proof.
  intros Hf Hh Ht.
  destruct (postLoop_normal line rest contentLines Hf Hh Ht) as (Hne & Hg & Hl).
  assert (Hone : forall rest' acc,
             postLoop (line :: rest') acc =
             acc ++ parseInlineElements line :: postLoop rest' []).
  { intros rest' acc.
    destruct (postLoop_normal line rest' acc Hf Hh Ht) as (_ & _ & ->).
    rewrite postLoop_acc, <- app_assoc. reflexivity. }
  split; [assumption|]. split; [assumption|]. split; [assumption|].
  split; [apply Hone|]. split; [|split].
  - rewrite Hone, length_app. simpl. lia.
  - intros text Hs. unfold contentLinesOf. rewrite Hs, Hone. reflexivity.
  - intros text pre Hs Hev. unfold contentLinesOf.
    rewrite Hs, postLoop_app by assumption. rewrite Hone. reflexivity.
Qed.

Lemma normal_line_gives_one_line_witness :
  (parseInlineElements "- one" <> [] /\
   postLoop ["- one"; "two"] [] =
     postLoop ["two"] ([] ++ [parseInlineElements "- one"])) /\
  contentLinesOf "- one" = [[PlainText (bullet ++ "one")]] /\
  contentLinesOf (JoinLines ["# T"; "- one"; "two"]) =
    [[StyledText "T" "bold"]; [PlainText (bullet ++ "one")]; [PlainText "two"]].
Proof.
  assert (Ht : TrimSpace "- one" <> "") by (vm_compute; discriminate).
  destruct (normal_line_gives_one_line "- one" ["two"] [] eq_refl eq_refl Ht)
    as (H1 & _ & H3 & _ & _ & _ & H7).
  destruct (normal_line_gives_one_line "- one" [] [] eq_refl eq_refl Ht)
    as (_ & _ & _ & _ & _ & H6 & _).
  split; [split; assumption|]. split.
  - rewrite (H6 "- one" eq_refl). vm_compute. reflexivity.
  - rewrite (H7 (JoinLines ["# T"; "- one"; "two"]) ["# T"] eq_refl eq_refl).
    vm_compute. reflexivity.
Defined.



(** * The line loop *)

(** C4. When the input ends in a code block that is never closed (a fence
    line reached outside any code block, with no fence line after it), the
    loop yields exactly one code block for it, made of all the lines that
    follow the fence joined by newlines, and the only error the conversion
    can return is the encoder's.  The input made of a fence line and the
    lines [A] and [B] gives one line with one [code_block] run of text
    ["A\nB"]. *)
Theorem unterminated_fence_one_block :
  (forall text pre opening body,
      SplitLines text = pre ++ opening :: body ->
      Nat.even (countFences pre) = true ->
      isFence opening = true ->
      (forall l, In l body -> isFence l = false) ->
      splitBlocks (SplitLines text) = splitBlocks pre ++ [FencedCode body] /\
      contentLinesOf text =
        postLoop pre [] ++ [[StyledText (JoinLines body) "code_block"]] /\
      forall (error : Type) (Marshal : value -> string * option error),
        markdownToFeishuPost error Marshal text = Marshal (postValue text)) /\
  contentLinesOf ("```" ++ String newline ("A" ++ String newline "B")) =
    [[StyledText ("A" ++ String newline "B") "code_block"]].
Proof.
  split.
  - intros text pre opening body Hs Hev Hop Hbody.
    assert (Hb : splitBlocks (SplitLines text) = splitBlocks pre ++ [FencedCode body]).
    { rewrite Hs, splitBlocks_app by assumption.
      rewrite splitBlocks_fence by assumption.
      destruct (no_fence _ Hbody) as [-> ->]. reflexivity. }
    split; [assumption|]. split.
    + rewrite contentLinesOf_blocks, Hb, flat_map_app, postLoop_blocks.
      reflexivity.
    + intros error Marshal. unfold markdownToFeishuPost.
      now destruct (Marshal (postValue text)).
  - vm_compute. reflexivity.
Qed.

Lemma unterminated_fence_one_block_witness :
  splitBlocks (SplitLines (JoinLines ["# T"; "```go"; "x"; "```"; "  ``` "; "A"; ""; "# B"])) =
    splitBlocks ["# T"; "```go"; "x"; "```"] ++ [FencedCode ["A"; ""; "# B"]] /\
  contentLinesOf (JoinLines ["# T"; "```go"; "x"; "```"; "  ``` "; "A"; ""; "# B"]) =
    postLoop ["# T"; "```go"; "x"; "```"] [] ++
    [[StyledText (JoinLines ["A"; ""; "# B"]) "code_block"]] /\
  forall (error : Type) (Marshal : value -> string * option error),
    markdownToFeishuPost error Marshal
      (JoinLines ["# T"; "```go"; "x"; "```"; "  ``` "; "A"; ""; "# B"]) =
    Marshal (postValue (JoinLines ["# T"; "```go"; "x"; "```"; "  ``` "; "A"; ""; "# B"])).
Proof.
  destruct unterminated_fence_one_block as (H & _).
  apply (H _ ["# T"; "```go"; "x"; "```"] "  ``` " ["A"; ""; "# B"]).
  - reflexivity.
  - reflexivity.
  - reflexivity.
  - intros l [<-|[<-|[<-|[]]]]; reflexivity.
Defined.

Example empty_code_block_document :
  splitBlocks (SplitLines (JoinLines ["```"; "```"])) = [FencedCode []] /\
  contentLinesOf (JoinLines ["```"; "```"]) = [[StyledText "" "code_block"]].
Proof. split; vm_compute; reflexivity. Qed.

(** C3, the claim as written fails: a code block without content gives a
    [code_block] run with empty text, and that run does not come from a
    blank line. *)
Lemma empty_code_block_run : ~ emptyOnlyForBlank (JoinLines ["```"; "```"]).
Proof.
  intros H.
  destruct (H (FencedCode []) [StyledText "" "code_block"]
              (StyledText "" "code_block")) as [_ Hb].
  - vm_compute. auto.
  - simpl. auto.
  - simpl. auto.
  - discriminate (Hb eq_refl).
Qed.

(** C3, amended. In every document a link has text; a run with empty text
    is either the plain run of a blank line or the [code_block] run of a
    code block whose joined lines are empty; the runs of headings and of
    normal lines always have text. *)
Theorem empty_text_only_blank_or_code text b line e :
  In b (splitBlocks (SplitLines text)) -> In line (assemble b) -> In e line ->
  contentLinesOf text = flat_map assemble (splitBlocks (SplitLines text)) /\
  exists t,
    textOf e = Some t /\
    (isLink e -> t <> "") /\
    (t = "" ->
     (b = Blank /\ e = PlainText "") \/
     (exists codeLines,
         b = FencedCode codeLines /\ JoinLines codeLines = "" /\
         e = StyledText "" "code_block")).
Proof.
  intros Hb Hl He. split; [apply contentLinesOf_blocks|].
  pose proof (block_elements _ _ _ _ Hb Hl He) as H.
  destruct b as [cl|t| |l].
  - subst e. exists (JoinLines cl). split; [reflexivity|]. split.
    + intros E; discriminate E.
    + intros E. right. exists cl. rewrite E. auto.
  - destruct H as [Ht ->]. exists t. split; [reflexivity|]. split.
    + intros E; discriminate E.
    + intros E. contradiction.
  - subst e. exists "". split; [reflexivity|]. split.
    + intros E; discriminate E.
    + auto.
  - destruct (inlineElement_text _ H) as (t & Ht & Hne).
    exists t. split; [assumption|]. split; [auto | contradiction].
Qed.

Lemma empty_text_only_blank_or_code_witness :
  contentLinesOf (JoinLines ["a"; "```"; ""; "```"]) =
    flat_map assemble (splitBlocks (SplitLines (JoinLines ["a"; "```"; ""; "```"]))) /\
  exists t,
    textOf (StyledText "" "code_block") = Some t /\
    (isLink (StyledText "" "code_block") -> t <> "") /\
    (t = "" ->
     (FencedCode [""] = Blank /\ StyledText "" "code_block" = PlainText "") \/
     (exists codeLines,
         FencedCode [""] = FencedCode codeLines /\ JoinLines codeLines = "" /\
         StyledText "" "code_block" = StyledText "" "code_block")).
Proof.
  apply (empty_text_only_blank_or_code
           (JoinLines ["a"; "```"; ""; "```"]) (FencedCode [""])
           [StyledText "" "code_block"] (StyledText "" "code_block")).
  - vm_compute. auto.
  - simpl. auto.
  - simpl. auto.
Defined.

(** C7. No run of any document carries the [italic] style.  The italic
    pattern is not among the candidates of the tokenizer: on ["*x*"] it
    matches the whole text, and the tokenizer returns the text as one
    plain run. *)
Theorem no_italic_run :
  (forall text line e,
      In line (contentLinesOf text) -> In e line -> ~ hasStyle e "italic") /\
  FindStringSubmatchIndex reMdItalic "*x*" = Some [0; 3; 1; 2] /\
  parseInlineElements "*x*" = [PlainText "*x*"].
Proof.
  split; [|split; vm_compute; reflexivity].
  intros text line e Hl He Hst.
  destruct (contentLinesOf_In _ _ Hl) as (b & Hb & Ha & _).
  assert (Hin : In line (assemble b)) by (rewrite Ha; now left).
  pose proof (block_elements _ _ _ _ Hb Hin He) as H.
  destruct b as [cl|t| |l].
  - subst e. destruct Hst as (l & Hg & Hi). simpl in Hg. injection Hg as <-.
    destruct Hi as [Hi|[]]. discriminate Hi.
  - destruct H as [_ ->]. destruct Hst as (l & Hg & Hi). simpl in Hg.
    injection Hg as <-. destruct Hi as [Hi|[]]. discriminate Hi.
  - subst e. destruct Hst as (l & Hg & _). discriminate Hg.
  - pose proof (inlineElement_style _ _ H Hst) as Hi. simpl in Hi.
    destruct Hi as [E|[E|[E|[]]]]; discriminate E.
Qed.

Lemma no_italic_run_witness :
  ~ hasStyle (StyledText "b" "bold") "italic".
Proof.
  destruct no_italic_run as (H & _).
  apply (H "a **b** *c*" [PlainText "a "; StyledText "b" "bold"; PlainText " *c*"]).
  - vm_compute. auto.
  - simpl. auto.
Defined.

(** * Preprocessing of a line *)

Lemma digit_not_marker d rest :
  isDigit d = true ->
  HasPrefix (String d (String "." rest)) "- " = false /\
  HasPrefix (String d (String "." rest)) "* " = false.
Proof.
  intros Hd. unfold HasPrefix. cbn [String.prefix].
  split.
  - destruct (ascii_dec "-" d) as [<-|]; [discriminate Hd | reflexivity].
  - destruct (ascii_dec "*" d) as [<-|]; [discriminate Hd | reflexivity].
Qed.

Lemma stripListMarkers_plain line :
  HasPrefix (TrimSpace line) "- " = false ->
  HasPrefix (TrimSpace line) "* " = false ->
  stripListMarkers line = TrimSpace line.
Proof.
  intros H1 H2. unfold stripListMarkers. rewrite H1, H2. simpl.
  now destruct (isNumbered (TrimSpace line)).
Qed.

(** C8. The tokenizer first trims the white space around the line: what
    is left sits in the line between two runs of white space and has none
    at its ends.  If the trimmed line starts with ["- "] or ["* "], these
    two bytes are replaced by the bullet U+2022 and a space and the rest is
    kept; any other line is kept as trimmed.  In particular a trimmed line
    that starts with a digit and a dot is kept unchanged, and the guard of
    the numbered-list branch holds for it as soon as something follows the
    dot.  The loop then runs on this text. *)
Theorem list_marker_preprocessing line :
  (exists a b,
      spaceRun a /\ spaceRun b /\ line = (a ++ TrimSpace line ++ b)%string /\
      leadingSpace (TrimSpace line) = None /\
      trailingSpace (TrimSpace line) = None) /\
  (forall rest,
      TrimSpace line = ("- " ++ rest)%string \/
      TrimSpace line = ("* " ++ rest)%string ->
      stripListMarkers line = (bytes [226; 128; 162] ++ " " ++ rest)%string) /\
  (HasPrefix (TrimSpace line) "- " = false ->
   HasPrefix (TrimSpace line) "* " = false ->
   stripListMarkers line = TrimSpace line) /\
  (forall d rest,
      TrimSpace line = String d (String "." rest) -> isDigit d = true ->
      stripListMarkers line = TrimSpace line /\
      (rest <> "" -> isNumbered (TrimSpace line) = true)) /\
  inlineLoop (S (String.length (stripListMarkers line)))
             (stripListMarkers line) [] = Some (parseInlineElements line).
Proof.
  split; [apply TrimSpace_spec|]. split; [|split; [|split]].
  - intros rest H. unfold stripListMarkers.
    assert (Hp : HasPrefix (TrimSpace line) "- " || HasPrefix (TrimSpace line) "* "
                 = true /\ drop 2 (TrimSpace line) = rest).
    { destruct H as [-> | ->]; unfold HasPrefix; simpl; destruct rest; auto. }
    destruct Hp as [-> ->].
    now destruct (isNumbered (bullet ++ rest)).
  - apply stripListMarkers_plain.
  - intros d rest Ht Hd.
    destruct (digit_not_marker d rest Hd) as [H1 H2].
    rewrite <- Ht in H1, H2.
    split; [now apply stripListMarkers_plain|].
    intros Hne. rewrite Ht. unfold isNumbered. rewrite Hd.
    destruct rest; [congruence | reflexivity].
  - destruct (parseInlineElements_spec line) as (els & Hloop & -> & _).
    exact Hloop.
Qed.

Lemma list_marker_preprocessing_witness :
  stripListMarkers "  * milk " = (bytes [226; 128; 162] ++ " " ++ "milk")%string /\
  stripListMarkers " plain text " = "plain text" /\
  stripListMarkers "  2. eggs" = "2. eggs" /\
  isNumbered "2. eggs" = true.
Proof.
  split; [|split].
  - destruct (list_marker_preprocessing "  * milk ") as (_ & H & _).
    apply (H "milk"). right. reflexivity.
  - destruct (list_marker_preprocessing " plain text ") as (_ & _ & H & _).
    apply H; reflexivity.
  - destruct (list_marker_preprocessing "  2. eggs") as (_ & _ & _ & H & _).
    destruct (H "2"%char " eggs") as [H1 H2]; [reflexivity | reflexivity |].
    split; [exact H1 | apply H2; discriminate].
Defined.

(** * Encoding *)

Lemma postValue_no_title text : ~ postWithTitle (postValue text).
Proof.
  intros (root & zh & content & Hroot & Hzh & Htitle & _).
  unfold postValue in Hroot.
  remember (contentValue (contentLinesOf text)) as cv.
  injection Hroot as <-.
  simpl in Hzh. injection Hzh as <-.
  simpl in Htitle. discriminate Htitle.
Qed.

Example post_value_hello :
  postValue "hello" =
    VMap [("zh_cn", VMap [("content", VSlice [VSlice [VMap (PlainText "hello")]])])].
Proof. vm_compute. reflexivity. Qed.

(** C2, the claim as written fails: the post value has no title. *)
Lemma post_has_no_title : ~ postWithTitle (postValue "hello").
Proof. apply postValue_no_title. Qed.

Section Encoder.

Variable error : Type.
Variable Marshal : value -> string * option error.

(** C2, amended. For every input the value handed to the encoder is a map
    with the single key [zh_cn], mapped to a map with the single key
    [content] (there is no title), mapped to the document as a slice of
    slices of elements; the document has at least one line and every line
    at least one element.  What [markdownToFeishuPost] returns is what the
    encoder returns for this value. *)
Theorem post_value_shape (text : string) :
  markdownToFeishuPost error Marshal text = Marshal (postValue text) /\
  postValue text =
    VMap [("zh_cn",
           VMap [("content",
                  VSlice (map (fun line => VSlice (map VMap line))
                              (contentLinesOf text)))])] /\
  contentLinesOf text <> [] /\
  Forall (fun line => line <> []) (contentLinesOf text).
Proof.
  split; [|split; [|split]].
  - unfold markdownToFeishuPost. now destruct (Marshal (postValue text)).
  - unfold postValue, contentValue.
    pose proof (contentLinesOf_nonempty text).
    destruct (contentLinesOf text); [congruence | reflexivity].
  - apply contentLinesOf_nonempty.
  - apply Forall_forall. intros line Hl.
    destruct (contentLinesOf_In _ _ Hl) as (_ & _ & _ & Hne). exact Hne.
Qed.

(** C6. [buildFeishuContent] answers with the plain-text type exactly when
    the encoding of the post fails and the encoding of the plain-text
    payload succeeds; the payload is then the encoding of the map whose
    [text] entry is the content it was given, unchanged.  Building the post
    value itself cannot fail: the error of [markdownToFeishuPost] is the
    encoder's. *)
Theorem fallback_only_on_encoding_failure content msgType payload err :
  buildFeishuContent error Marshal content = (msgType, payload, err) ->
  markdownToFeishuPost error Marshal content = Marshal (postValue content) /\
  (msgType = MsgTypeText <->
   snd (Marshal (postValue content)) <> None /\
   snd (Marshal (VMap [("text", VString content)])) = None) /\
  (msgType = MsgTypeText ->
   Marshal (VMap [("text", VString content)]) = (payload, None) /\ err = None).
Proof.
  intros H. unfold buildFeishuContent, markdownToFeishuPost in *.
  destruct (Marshal (postValue content)) as [data [e|]] eqn:Ep.
  - destruct (Marshal (VMap [("text", VString content)])) as [p [e'|]] eqn:Ef;
      injection H as <- <- <-; simpl.
    + split; [reflexivity|]. split.
      * split; [discriminate | intros [_ E]; discriminate E].
      * discriminate.
    + split; [reflexivity|]. split.
      * split; [intros _; split; [discriminate | reflexivity] | reflexivity].
      * auto.
  - injection H as <- <- <-. simpl. split; [reflexivity|]. split.
    + split; [discriminate | intros [E _]; congruence].
    + discriminate.
Qed.

End Encoder.

Lemma fallback_only_on_encoding_failure_witness :
  markdownToFeishuPost string flatMarshal "**hi**" =
    flatMarshal (postValue "**hi**") /\
  (MsgTypeText = MsgTypeText <->
   snd (flatMarshal (postValue "**hi**")) <> None /\
   snd (flatMarshal (VMap [("text", VString "**hi**")])) = None) /\
  (MsgTypeText = MsgTypeText ->
   flatMarshal (VMap [("text", VString "**hi**")]) = ("{text:**hi**}", None) /\
   @None string = None).
Proof.
  apply (fallback_only_on_encoding_failure
           string flatMarshal "**hi**" MsgTypeText "{text:**hi**}" None).
  reflexivity.
Defined.

(** * Further properties of the converter *)

Section ExactMatches.

Lemma get_append (pre : string) (d : ascii) (s : string) :
  String.get (String.length pre) (pre ++ String d s) = Some d.
Proof. induction pre as [|a pre IH]; simpl; [reflexivity | exact IH]. Qed.

Lemma hasByte_append (c : ascii) (a b : string) :
  hasByte c (a ++ b) = hasByte c a || hasByte c b.
Proof.
  induction a as [|x a IH]; simpl; [reflexivity|].
  now rewrite IH, orb_assoc.
Qed.

Lemma hasByte_get (c : ascii) (s : string) (n : nat) :
  String.get n s = Some c -> hasByte c s = true.
Proof.
  revert n; induction s as [|a s IH]; intros n H; simpl in *; [discriminate|].
  destruct n as [|n].
  - injection H as ->. now rewrite Ascii.eqb_refl.
  - rewrite (IH _ H). apply orb_true_r.
Qed.

Lemma allBytes_Not (c : ascii) (t : string) :
  allBytes (Not c) t = true -> hasByte c t = false.
Proof.
  induction t as [|a t IH]; simpl; [reflexivity|].
  intros H. apply andb_prop in H. destruct H as [Ha Ht].
  unfold Not in Ha. apply negb_true_iff in Ha. now rewrite Ha, IH.
Qed.

(** The candidate of each pattern, spelled out, with the byte it starts
    at. *)
Lemma code_candidate remaining m :
  candidate reInlineCode "code" remaining = Some m ->
  exactMatch remaining m /\ String.get (start m) remaining = Some "`"%char.
Proof.
  unfold candidate. intros H.
  destruct (FindStringSubmatchIndex reInlineCode remaining) as [loc|] eqn:F;
    [|discriminate].
  injection H as <-.
  destruct (code_match _ _ F) as (pre & t & post & Hrem & Ht & Hall & ->).
  unfold idx; simpl nth.
  assert (Hs : slice (String.length pre + 1) (String.length pre + 1 + String.length t)
                     remaining = t).
  { assert (remaining = ((pre ++ "`") ++ t ++ ("`" ++ post))%string) as ->
      by (rewrite Hrem, !append_assoc; reflexivity).
    rewrite slice_mid; auto; len. }
  rewrite Hs. split.
  - apply ExCode; auto. rewrite Hrem. len.
  - rewrite Hrem. apply get_append.
Qed.

Lemma delimited_candidate (d : ascii) ty remaining m :
  In ty ["bold"; "strike"] ->
  candidate (Seq [Lit d; Lit d; Group 1 (PlusLazy anyNotNL); Lit d; Lit d])
            ty remaining = Some m ->
  exactMatch remaining m /\ String.get (start m) remaining = Some d.
Proof.
  unfold candidate. intros Hty H.
  destruct (FindStringSubmatchIndex _ remaining) as [loc|] eqn:F; [|discriminate].
  injection H as <-.
  destruct (delimited_match _ _ _ F) as (pre & t & post & Hrem & Ht & Hall & ->).
  unfold idx; simpl nth.
  assert (Hs : slice (String.length pre + 2) (String.length pre + 2 + String.length t)
                     remaining = t).
  { assert (remaining = ((pre ++ String d (String d "")) ++ t ++
                         String d (String d post))%string) as ->
      by (rewrite Hrem, !append_assoc; reflexivity).
    rewrite slice_mid; auto; len. }
  rewrite Hs. split.
  - apply ExDelimited; auto. rewrite Hrem. len.
  - rewrite Hrem. apply get_append.
Qed.

Lemma link_candidate remaining m :
  linkCandidate remaining = Some m ->
  exactMatch remaining m /\ String.get (start m) remaining = Some "["%char.
Proof.
  unfold linkCandidate. intros H.
  destruct (FindStringSubmatchIndex reMdLink remaining) as [loc|] eqn:F;
    [|discriminate].
  injection H as <-.
  destruct (link_match _ _ F)
    as (pre & t & h & post & Hrem & Ht & Hh & Hat & Hah & ->).
  unfold idx; simpl nth.
  assert (Hs : slice (String.length pre + 1) (String.length pre + 1 + String.length t)
                     remaining = t).
  { assert (remaining = ((pre ++ "[") ++ t ++ ("](" ++ h ++ ")" ++ post))%string)
      as -> by (rewrite Hrem, !append_assoc; reflexivity).
    rewrite slice_mid; auto; len. }
  assert (Hs' : slice (String.length pre + String.length t + 3)
                      (String.length pre + String.length t + 3 + String.length h)
                      remaining = h).
  { assert (remaining = ((pre ++ "[" ++ t ++ "](") ++ h ++ (")" ++ post))%string)
      as -> by (rewrite Hrem; repeat first [rewrite append_assoc | progress simpl];
                reflexivity).
    rewrite slice_mid; auto; len. }
  rewrite Hs, Hs'. split.
  - apply ExLink; auto. rewrite Hrem. len.
  - rewrite Hrem. apply get_append.
Qed.

(** The byte the candidate at each index starts at. *)
Lemma candidates_first_byte remaining i m :
  nth_error (candidates remaining) i = Some (Some m) ->
  exactMatch remaining m /\
  exists d, nth_error delimiters i = Some d /\
            String.get (start m) remaining = Some d.
Proof.
  unfold candidates, delimiters. intros H.
  destruct i as [|[|[|[|[|i]]]]]; simpl in H;
    [injection H as H; apply link_candidate in H
    |injection H as H; apply code_candidate in H
    |injection H as H;
     apply (delimited_candidate "*" "bold" _ _ (or_introl eq_refl)) in H
    |injection H as H;
     apply (delimited_candidate "_" "bold" _ _ (or_introl eq_refl)) in H
    |injection H as H;
     apply (delimited_candidate "~" "strike" _ _ (or_intror (or_introl eq_refl))) in H
    |destruct i; discriminate H];
    destruct H as [Hex Hg]; (split; [exact Hex|]);
    eexists; (split; [reflexivity | exact Hg]).
Qed.

Lemma earliestMatch_exact remaining m :
  earliestMatch remaining = Some m ->
  exactMatch remaining m /\
  exists d, In d delimiters /\ String.get (start m) remaining = Some d.
Proof.
  intros H. destruct (earliestMatch_selected _ _ H) as (i & Hi & _).
  destruct (candidates_first_byte _ _ _ Hi) as (Hex & d & Hd & Hg).
  split; [assumption|]. exists d. split; [|assumption].
  eapply nth_error_In; eassumption.
Qed.

End ExactMatches.

Section LineAccounting.

Lemma sourceLen_app (a b : list postElement) :
  sourceLen (a ++ b) = sourceLen a + sourceLen b.
Proof. unfold sourceLen. now rewrite map_app, list_sum_app. Qed.

Lemma appendMatched_exact remaining elements m :
  exactMatch remaining m ->
  exists e, appendMatched elements m = elements ++ [e] /\ strictElement e /\
            start m + (textLen e + markupLen e) = end_ m.
Proof.
  intros [st t h Ht Hh Hat Hah _ | st t Ht Hat _ | st ty t Hty Ht Hat _].
  - exists (Link t h). split; [reflexivity|]. split.
    + constructor; auto using allBytes_Not.
    + cbn. lia.
  - exists (StyledText t "code_block"). split; [reflexivity|]. split.
    + constructor; auto using allBytes_Not.
    + cbn. lia.
  - destruct Hty as [<-|[<-|[]]].
    + exists (StyledText t "bold"). split; [reflexivity|]. split.
      * constructor; auto. now apply allBytes_Not.
      * cbn. lia.
    + exists (StyledText t "lineThrough"). split; [reflexivity|]. split.
      * constructor; auto. now apply allBytes_Not.
      * cbn. lia.
Qed.

Lemma exactMatch_bound remaining m :
  exactMatch remaining m ->
  start m <= end_ m /\ end_ m <= String.length remaining.
Proof. intros [? ? ? ? ? ? ? H|? ? ? ? H|? ? ? ? ? ? H]; simpl; lia. Qed.

Lemma step_exact remaining elements m :
  exactMatch remaining m ->
  exists new, step remaining elements m = elements ++ new /\
              Forall strictElement new /\ sourceLen new = end_ m.
Proof.
  intros Hex. destruct (exactMatch_bound _ _ Hex) as [Hse Hel]. unfold step.
  destruct (Nat.ltb_spec 0 (start m)) as [L|L].
  - destruct (appendMatched_exact _ (elements ++ [PlainText (take (start m) remaining)])
                                  _ Hex) as (e & -> & He & Hlen).
    exists [PlainText (take (start m) remaining); e].
    rewrite <- app_assoc. split; [reflexivity|].
    assert (Htake : String.length (take (start m) remaining) = start m).
    { rewrite length_take. lia. }
    split.
    + constructor; [|constructor; [assumption | constructor]].
      constructor. intros E. rewrite E in Htake. simpl in Htake. lia.
    + unfold sourceLen. cbn [map].
      change (textLen (PlainText (take (start m) remaining)))
        with (String.length (take (start m) remaining)).
      change (markupLen (PlainText (take (start m) remaining))) with 0.
      rewrite Htake. cbn [list_sum fold_right]. lia.
  - destruct (appendMatched_exact _ elements _ Hex) as (e & -> & He & Hlen).
    exists [e]. split; [reflexivity|]. split.
    + constructor; [assumption | constructor].
    + unfold sourceLen. cbn [map list_sum fold_right]. lia.
Qed.

Lemma inlineLoop_exact fuel :
  forall remaining elements els,
    inlineLoop fuel remaining elements = Some els ->
    exists new, els = elements ++ new /\ Forall strictElement new /\
                sourceLen new = String.length remaining.
Proof.
  induction fuel as [|fuel IH]; intros remaining elements els H.
  - simpl in H. destruct (String.eqb_spec remaining "") as [->|]; [|discriminate].
    injection H as <-. exists []. rewrite app_nil_r. auto.
  - destruct (string_dec remaining "") as [->|Hne].
    + rewrite inlineLoop_empty in H. injection H as <-.
      exists []. rewrite app_nil_r. auto.
    + rewrite inlineLoop_unfold in H by assumption.
      destruct (earliestMatch remaining) as [m|] eqn:E.
      * destruct (earliestMatch_exact _ _ E) as [Hex _].
        destruct (step_exact _ elements _ Hex) as (new & Hstep & Hall & Hlen).
        destruct (exactMatch_bound _ _ Hex) as [_ Hb].
        rewrite Hstep in H.
        destruct (IH _ _ _ H) as (new' & -> & Hall' & Hlen').
        exists (new ++ new'). rewrite app_assoc.
        split; [reflexivity|]. split; [now apply Forall_app|].
        rewrite sourceLen_app, Hlen, Hlen', length_drop. lia.
      * injection H as <-. exists [PlainText remaining].
        split; [reflexivity|]. split.
        -- constructor; [now constructor | constructor].
        -- unfold sourceLen. cbn. lia.
Qed.

Lemma parseInlineElements_exact line :
  Forall strictElement (parseInlineElements line) /\
  sourceLen (parseInlineElements line) = String.length (stripListMarkers line).
Proof.
  destruct (parseInlineElements_spec line) as (els & Hloop & -> & _).
  destruct (inlineLoop_exact _ _ _ _ Hloop) as (new & -> & Hall & Hlen).
  simpl. auto.
Qed.

End LineAccounting.

(** X1. The runs of a line keep the limits of their patterns: no run has
    empty text, the text of a link has no closing bracket and its target no
    closing parenthesis, inline code has no backtick, and bold and
    strikethrough texts have no newline. *)
Theorem inline_elements_strict line :
  Forall strictElement (parseInlineElements line).
Proof. apply parseInlineElements_exact. Qed.

(** X2. Nothing of a line is lost: the lengths of the texts of its runs,
    with the markup bytes each run stands for, add up to the length of the
    line after trimming and list-marker normalization. *)
Theorem inline_elements_cover_line line :
  sourceLen (parseInlineElements line) = String.length (stripListMarkers line).
Proof. apply parseInlineElements_exact. Qed.

(** X3. A line without any of the bytes the patterns start with is one
    plain run holding the line after trimming and list-marker
    normalization. *)
Theorem plain_line_is_one_run line :
  stripListMarkers line <> "" ->
  (forall d, In d delimiters -> hasByte d (stripListMarkers line) = false) ->
  parseInlineElements line = [PlainText (stripListMarkers line)].
Proof.
  intros Hne Hno. unfold parseInlineElements.
  rewrite inlineLoop_unfold by assumption.
  destruct (earliestMatch (stripListMarkers line)) as [m|] eqn:E; [|reflexivity].
  destruct (earliestMatch_exact _ _ E) as (_ & d & Hd & Hg).
  apply hasByte_get in Hg. rewrite (Hno _ Hd) in Hg. discriminate Hg.
Qed.

Lemma plain_line_is_one_run_witness :
  parseInlineElements "  * 3 < 4 (see notes)  " =
    [PlainText (stripListMarkers "  * 3 < 4 (see notes)  ")].
Proof.
  apply plain_line_is_one_run.
  - vm_compute. discriminate.
  - intros d Hd. unfold delimiters in Hd. simpl in Hd.
    destruct Hd as [<-|[<-|[<-|[<-|[<-|[]]]]]]; vm_compute; reflexivity.
Defined.

(** X4. Two of the five candidates never start at the same offset, so the
    order of evaluation never decides between them. *)
Theorem candidates_never_tie remaining i j m m' :
  nth_error (candidates remaining) i = Some (Some m) ->
  nth_error (candidates remaining) j = Some (Some m') ->
  i <> j -> start m <> start m'.
Proof.
  intros Hi Hj Hne Hs. apply Hne.
  destruct (candidates_first_byte _ _ _ Hi) as (_ & d & Hd & Hg).
  destruct (candidates_first_byte _ _ _ Hj) as (_ & d' & Hd' & Hg').
  rewrite Hs, Hg' in Hg. injection Hg as ->.
  unfold delimiters in *.
  destruct i as [|[|[|[|[|i]]]]]; destruct j as [|[|[|[|[|j]]]]];
    simpl in Hd, Hd'; try reflexivity; try congruence;
    try (destruct i; discriminate Hd); try (destruct j; discriminate Hd').
Qed.

Lemma candidates_never_tie_witness :
  start (mkMatch 4 10 "link" ["a"; "b"]) <> start (mkMatch 0 3 "code" ["c"]).
Proof.
  apply (candidates_never_tie "`c` [a](b)" 0 1); try reflexivity.
  discriminate.
Defined.

Section MoreBlockFacts.

Lemma closed_fence body closing rest :
  (forall l, In l body -> isFence l = false) -> isFence closing = true ->
  codeLinesOf (body ++ closing :: rest) = body /\
  afterFence (body ++ closing :: rest) = rest.
Proof.
  intros Hb Hc. induction body as [|l body IH]; simpl.
  - now rewrite Hc.
  - rewrite (Hb l) by (now left).
    destruct IH as [-> ->]; [intros; apply Hb; now right | auto].
Qed.

Lemma splitBlocks_length lines :
  List.length (splitBlocks lines) <= List.length lines.
Proof.
  induction lines as [lines IH] using (induction_ltof1 _ (@List.length string)).
  unfold ltof in IH. destruct lines as [|line rest]; [simpl; lia|].
  destruct (isFence line) eqn:Hf.
  - rewrite splitBlocks_fence by assumption.
    pose proof (afterFence_length rest) as Ha.
    specialize (IH (afterFence rest)). simpl in *. lia.
  - rewrite splitBlocks_line by assumption.
    specialize (IH rest). simpl in *. lia.
Qed.

Lemma splitBlocks_no_fence lines :
  (forall l, In l lines -> isFence l = false) ->
  splitBlocks lines = map classify lines.
Proof.
  induction lines as [|line rest IH]; intros H; [reflexivity|].
  rewrite splitBlocks_line by (apply H; now left).
  simpl map. rewrite IH; [reflexivity|]. intros; apply H; now right.
Qed.

Lemma assemble_length blocks :
  (forall b, In b blocks -> exists l, assemble b = [l]) ->
  List.length (flat_map assemble blocks) = List.length blocks.
Proof.
  induction blocks as [|b blocks IH]; intros H; [reflexivity|].
  simpl. rewrite length_app, IH by (intros; apply H; now right).
  destruct (H b) as [l ->]; [now left | reflexivity].
Qed.

Lemma contentLinesOf_length text :
  List.length (contentLinesOf text) =
  List.length (splitBlocks (SplitLines text)).
Proof.
  rewrite contentLinesOf_blocks. apply assemble_length.
  intros b Hb. destruct (assemble_one _ _ Hb) as (l & E & _). eauto.
Qed.

End MoreBlockFacts.

(** X5. A code block that is closed gives one [code_block] run holding its
    lines joined by newlines, whatever the lines look like; the two fence
    lines give nothing, and the loop goes on after the closing fence.  The
    loop returns the lines it had, then that one line, then the lines of
    what follows the closing fence; a text made of the block alone gives a
    document of that one line. *)
Theorem closed_fence_verbatim opening body closing rest contentLines :
  isFence opening = true ->
  (forall l, In l body -> isFence l = false) ->
  isFence closing = true ->
  postLoop (opening :: body ++ closing :: rest) contentLines =
    postLoop rest (contentLines ++ [[StyledText (JoinLines body) "code_block"]]) /\
  postLoop (opening :: body ++ closing :: rest) contentLines =
    contentLines ++ [StyledText (JoinLines body) "code_block"] :: postLoop rest [] /\
  (forall text,
      SplitLines text = opening :: body ++ [closing] ->
      contentLinesOf text = [[StyledText (JoinLines body) "code_block"]]) /\
  (forall text pre,
      SplitLines text = pre ++ opening :: body ++ closing :: rest ->
      Nat.even (countFences pre) = true ->
      contentLinesOf text =
        postLoop pre [] ++
        [StyledText (JoinLines body) "code_block"] :: postLoop rest []).
Proof.
  intros Ho Hb Hc.
  assert (Hstep : forall rest' acc,
             postLoop (opening :: body ++ closing :: rest') acc =
             postLoop rest' (acc ++ [[StyledText (JoinLines body) "code_block"]])).
  { intros rest' acc. rewrite postLoop_fence by assumption.
    destruct (closed_fence body closing rest' Hb Hc) as [-> ->]. reflexivity. }
  assert (Hone : forall rest' acc,
             postLoop (opening :: body ++ closing :: rest') acc =
             acc ++ [StyledText (JoinLines body) "code_block"] :: postLoop rest' []).
  { intros rest' acc. rewrite Hstep, postLoop_acc, <- app_assoc. reflexivity. }
  split; [apply Hstep|]. split; [apply Hone|]. split.
  - intros text Hs. unfold contentLinesOf. rewrite Hs, Hone. reflexivity.
  - intros text pre Hs Hev. unfold contentLinesOf.
    rewrite Hs, postLoop_app by assumption. rewrite Hone. reflexivity.
Qed.

Lemma closed_fence_verbatim_witness :
  contentLinesOf
    (JoinLines ["intro"; "```go"; "# not a heading"; "**x** [a](b)"; ""; " ```"; "after"]) =
  [[PlainText "intro"];
   [StyledText (JoinLines ["# not a heading"; "**x** [a](b)"; ""]) "code_block"];
   [PlainText "after"]].
Proof.
  assert (Hb : forall l, In l ["# not a heading"; "**x** [a](b)"; ""] ->
                         isFence l = false)
    by (intros l [<-|[<-|[<-|[]]]]; reflexivity).
  destruct (closed_fence_verbatim "```go" ["# not a heading"; "**x** [a](b)"; ""]
              " ```" ["after"] [] eq_refl Hb eq_refl) as (_ & _ & _ & H).
  rewrite (H (JoinLines ["intro"; "```go"; "# not a heading"; "**x** [a](b)"; "";
                         " ```"; "after"])
              ["intro"] eq_refl eq_refl).
  vm_compute. reflexivity.
Defined.

(** X6. A document has at least one line and at most as many lines as the
    input; when no input line is a fence line it has exactly one line for
    each input line. *)
Theorem document_line_count text :
  1 <= List.length (contentLinesOf text) <= List.length (SplitLines text) /\
  ((forall l, In l (SplitLines text) -> isFence l = false) ->
   List.length (contentLinesOf text) = List.length (SplitLines text)).
Proof.
  split; [split|].
  - pose proof (contentLinesOf_nonempty text).
    destruct (contentLinesOf text); [congruence | simpl; lia].
  - rewrite contentLinesOf_length. apply splitBlocks_length.
  - intros H. rewrite contentLinesOf_length, splitBlocks_no_fence by assumption.
    apply length_map.
Qed.

Lemma document_line_count_witness :
  List.length (contentLinesOf (JoinLines ["# a"; ""; "b `c`"; "- d"])) =
  List.length (SplitLines (JoinLines ["# a"; ""; "b `c`"; "- d"])).
Proof.
  apply document_line_count.
  intros l [<-|[<-|[<-|[<-|[]]]]]; reflexivity.
Defined.

Lemma stripListMarkers_bullet line rest :
  TrimSpace line = ("- " ++ rest)%string \/ TrimSpace line = ("* " ++ rest)%string ->
  stripListMarkers line = (bullet ++ rest)%string.
Proof.
  intros H. unfold stripListMarkers.
  assert (Hp : HasPrefix (TrimSpace line) "- " || HasPrefix (TrimSpace line) "* "
               = true /\ drop 2 (TrimSpace line) = rest).
  { destruct H as [-> | ->]; unfold HasPrefix; simpl; destruct rest; auto. }
  destruct Hp as [-> ->].
  now destruct (isNumbered (bullet ++ rest)).
Qed.

Lemma bullet_no_match rest m :
  exactMatch (bullet ++ rest) m ->
  (exists d, In d delimiters /\ String.get (start m) (bullet ++ rest) = Some d) ->
  exists k, start m = 4 + k /\
            take (start m) (bullet ++ rest) = (bullet ++ take k rest)%string.
Proof.
  intros _ (d & Hd & Hg).
  destruct (start m) as [|[|[|[|k]]]].
  - cbn in Hg. injection Hg as <-. cbv in Hd. intuition discriminate.
  - cbn in Hg. injection Hg as <-. cbv in Hd. intuition discriminate.
  - cbn in Hg. injection Hg as <-. cbv in Hd. intuition discriminate.
  - cbn in Hg. injection Hg as <-. cbv in Hd. intuition discriminate.
  - exists k. split; reflexivity.
Qed.

(** X7. A list item (a line that starts, after trimming, with a dash or a
    star and a space) always gives a first run that is plain and starts
    with the bullet and a space. *)
Theorem list_item_starts_with_bullet line rest :
  TrimSpace line = ("- " ++ rest)%string \/ TrimSpace line = ("* " ++ rest)%string ->
  exists t elements,
    parseInlineElements line = PlainText (bullet ++ t) :: elements.
Proof.
  intros H. apply stripListMarkers_bullet in H.
  destruct (parseInlineElements_spec line) as (els & Hloop & -> & _).
  rewrite H in Hloop.
  rewrite inlineLoop_unfold in Hloop by apply bullet_nonempty.
  destruct (earliestMatch (bullet ++ rest)) as [m|] eqn:E.
  - destruct (earliestMatch_exact _ _ E) as [Hex Hd].
    destruct (bullet_no_match _ _ Hex Hd) as (k & Hk & Ht).
    unfold step in Hloop.
    destruct (Nat.ltb_spec 0 (start m)) as [L|L]; [|lia].
    destruct (appendMatched_exact _ ([] ++ [PlainText (take (start m) (bullet ++ rest))])
                                  _ Hex) as (e & He & _).
    rewrite He in Hloop.
    destruct (inlineLoop_exact _ _ _ _ Hloop) as (new & -> & _).
    rewrite Ht. exists (take k rest), (e :: new). reflexivity.
  - injection Hloop as <-. exists rest, []. reflexivity.
Qed.

Lemma list_item_starts_with_bullet_witness :
  exists t elements,
    parseInlineElements "   - **milk** and `eggs`" = PlainText (bullet ++ t) :: elements.
Proof.
  apply (list_item_starts_with_bullet _ "**milk** and `eggs`").
  left. reflexivity.
Defined.

Section EncoderOutcomes.

Variable error : Type.
Variable Marshal : value -> string * option error.

(** X8. [buildFeishuContent] returns the post type with the encoded post
    whenever that encoding succeeds.  It returns an error only when both
    encodings fail: the error is the one of the plain-text encoding, and
    the type and the payload are empty. *)
Theorem buildFeishuContent_outcomes content :
  let '(msgType, payload, err) := buildFeishuContent error Marshal content in
  match err with
  | None =>
      (msgType = MsgTypePost /\ Marshal (postValue content) = (payload, None)) \/
      (msgType = MsgTypeText /\ snd (Marshal (postValue content)) <> None /\
       Marshal (VMap [("text", VString content)]) = (payload, None))
  | Some e =>
      msgType = "" /\ payload = "" /\
      snd (Marshal (postValue content)) <> None /\
      snd (Marshal (VMap [("text", VString content)])) = Some e
  end.
Proof.
  unfold buildFeishuContent, markdownToFeishuPost.
  destruct (Marshal (postValue content)) as [data [e|]] eqn:Ep.
  - destruct (Marshal (VMap [("text", VString content)])) as [p [e'|]] eqn:Ef; simpl.
    + repeat split; auto; discriminate.
    + right. repeat split; auto; discriminate.
  - left. split; reflexivity.
Qed.

End EncoderOutcomes.

(** * The inbound side of the channel *)

(** X9. The sender id is the first of the user id, the open id and the
    union id that is set and not empty, and the empty string when there is
    no sender, no id record or no such field. *)
Theorem extractFeishuSenderID_first_nonempty sender :
  extractFeishuSenderID sender =
  match sender with
  | Some {| SenderId := Some id |} =>
      hd "" (filter (fun s => negb (String.eqb s ""))
                    (map deref [UserId_ id; OpenId id; UnionId id]))
  | _ => ""
  end.
Proof.
  destruct sender as [[[[u o n]|] tk]|]; try reflexivity.
  unfold extractFeishuSenderID. cbn [SenderId UserId_ OpenId UnionId map filter].
  destruct u as [u|], o as [o|], n as [n|]; cbn [nonEmpty deref];
    change (String.eqb "" "") with true;
    repeat match goal with
           | |- context [String.eqb ?x ""] => destruct (String.eqb x "")
           end; reflexivity.
Qed.

Section ReceiveFacts.

Variable UnmarshalText : string -> option string.

(** X10. The content of a message that is not of type text is returned as
    it is.  The result is empty only when the message or its content is
    missing or empty, or when a text payload decodes to an empty text. *)
Theorem extractFeishuMessageContent_edges message :
  (forall msg,
      message = Some msg -> MessageType msg <> Some MsgTypeText ->
      extractFeishuMessageContent UnmarshalText message = deref (Content msg)) /\
  (extractFeishuMessageContent UnmarshalText message = "" <->
   match message with
   | None => True
   | Some msg =>
       match Content msg with
       | None => True
       | Some content =>
           content = "" \/
           (MessageType msg = Some MsgTypeText /\ UnmarshalText content = Some "")
       end
   end).
Proof.
  split.
  - intros msg -> Hty. unfold extractFeishuMessageContent.
    destruct (Content msg) as [c|]; [|reflexivity]. simpl.
    destruct (String.eqb_spec c "") as [->|]; [reflexivity|].
    destruct (MessageType msg) as [ty|]; [|reflexivity].
    destruct (String.eqb_spec ty MsgTypeText) as [->|]; [congruence | reflexivity].
  - unfold extractFeishuMessageContent.
    destruct message as [msg|]; [|tauto].
    destruct (Content msg) as [c|]; [|tauto].
    destruct (String.eqb_spec c "") as [->|Hc]; [tauto|].
    destruct (MessageType msg) as [ty|].
    + destruct (String.eqb_spec ty MsgTypeText) as [->|Hty].
      * destruct (UnmarshalText c) as [t|].
        -- split; [intros ->; auto | intros [?|[_ [= ->]]]; [contradiction | reflexivity]].
        -- split; [contradiction | intros [?|[_ ?]]; [contradiction | discriminate]].
      * split; [contradiction | intros [?|[[= ?] _]]; contradiction].
    + split; [contradiction | intros [?|[? _]]; [contradiction | discriminate]].
Qed.

End ReceiveFacts.

Lemma extractFeishuMessageContent_edges_witness :
  extractFeishuMessageContent (fun _ => None)
    (Some {| MessageId := None; ChatId := None; ChatType := None;
             MessageType := Some "image"; Content := Some "{}"; Mentions := [] |}) =
  "{}".
Proof.
  match goal with
  | |- extractFeishuMessageContent _ (Some ?m) = _ =>
      apply (proj1 (extractFeishuMessageContent_edges (fun _ => None) (Some m)) m);
      [reflexivity | discriminate]
  end.
Defined.

Section MentionFacts.

Lemma mentionLoop_true botOpenID mentions :
  mentionLoop botOpenID mentions = true <->
  exists mention,
    In (Some mention) mentions /\
    match mentionOpenId mention with
    | Some openId =>
        if String.eqb botOpenID "" then Key mention <> None
        else openId = botOpenID
    | None => False
    end.
Proof.
  induction mentions as [|[m|] rest IH]; simpl.
  - split; [discriminate | intros (m & [] & _)].
  - destruct (String.eqb_spec botOpenID "") as [Hb|Hb]; simpl.
    + destruct (Key m) as [k|] eqn:Ek, (mentionOpenId m) as [o|] eqn:Eo.
      * split; [intros _|reflexivity]. exists m. rewrite Eo, Ek.
        split; [now left | discriminate].
      * rewrite IH. split.
        -- intros (m' & Hin & Hm'). exists m'. auto.
        -- intros (m' & [[= <-]|Hin] & Hm'); [now rewrite Eo in Hm' | eauto].
      * rewrite IH. split.
        -- intros (m' & Hin & Hm'). exists m'. auto.
        -- intros (m' & [[= <-]|Hin] & Hm'); [|eauto].
           rewrite Eo, Ek in Hm'. congruence.
      * rewrite IH. split.
        -- intros (m' & Hin & Hm'). exists m'. auto.
        -- intros (m' & [[= <-]|Hin] & Hm'); [now rewrite Eo in Hm' | eauto].
    + destruct (mentionOpenId m) as [o|] eqn:Eo.
      * destruct (String.eqb_spec o botOpenID) as [->|Ho].
        -- split; [intros _|reflexivity]. exists m. rewrite Eo. auto.
        -- rewrite IH. split.
           ++ intros (m' & Hin & Hm'). exists m'. auto.
           ++ intros (m' & [[= <-]|Hin] & Hm'); [|eauto].
              rewrite Eo in Hm'. contradiction.
      * rewrite IH. split.
        -- intros (m' & Hin & Hm'). exists m'. auto.
        -- intros (m' & [[= <-]|Hin] & Hm'); [now rewrite Eo in Hm' | eauto].
  - rewrite IH. split.
    + intros (m' & Hin & Hm'). exists m'. auto.
    + intros (m' & [[=]|Hin] & Hm'). eauto.
Qed.

Lemma isBotMentioned_loop botOpenID message :
  isBotMentioned botOpenID (Some message) =
  mentionLoop botOpenID (Mentions message).
Proof. unfold isBotMentioned. now destruct (Mentions message). Qed.

Lemma stripLoop_not_mentioned botOpenID mentions :
  mentionLoop botOpenID mentions = false ->
  forall content, stripLoop botOpenID mentions content = content.
Proof.
  induction mentions as [|[m|] rest IH]; simpl; intros H content; auto.
  unfold isBotMention.
  destruct (String.eqb_spec botOpenID "") as [Hb|Hb]; simpl in *.
  - destruct (Key m) as [k|]; [|auto].
    destruct (mentionOpenId m) as [o|]; [discriminate H | auto].
  - destruct (mentionOpenId m) as [o|].
    + destruct (String.eqb o botOpenID); [discriminate H|].
      destruct (Key m); auto.
    + destruct (Key m); auto.
Qed.

Lemma removeFrom_length old :
  forall s skip, String.length (removeFrom old skip s) <= String.length s.
Proof.
  induction s as [|c s IH]; intros skip; cbn [removeFrom String.length]; [lia|].
  destruct skip as [|k].
  - destruct (HasPrefix (String c s) old).
    + specialize (IH (String.length old - 1)). lia.
    + specialize (IH 0). cbn [String.length]. lia.
  - specialize (IH k). lia.
Qed.

Lemma RemoveAll_length s old : String.length (RemoveAll s old) <= String.length s.
Proof.
  unfold RemoveAll. destruct (String.eqb old ""); [lia | apply removeFrom_length].
Qed.

Lemma stripLoop_length botOpenID mentions :
  forall content,
    String.length (stripLoop botOpenID mentions content) <= String.length content.
Proof.
  induction mentions as [|[m|] rest IH]; simpl; intros content; auto.
  destruct (Key m) as [k|]; [|auto].
  destruct (isBotMention botOpenID m); [|auto].
  pose proof (IH (RemoveAll content k)). pose proof (RemoveAll_length content k). lia.
Qed.

Lemma TrimSpace_length s : String.length (TrimSpace s) <= String.length s.
Proof.
  destruct (TrimSpace_spec s) as (a & b & _ & _ & Hs & _).
  pose proof (f_equal String.length Hs) as L.
  rewrite !length_append in L. lia.
Qed.

End MentionFacts.

(** X11. With the open id of the bot known, the bot is mentioned exactly
    when some mention carries that open id; without it, exactly when some
    mention has a key and an open id. *)
Theorem isBotMentioned_iff botOpenID message :
  isBotMentioned botOpenID (Some message) = true <->
  exists mention,
    In (Some mention) (Mentions message) /\
    match mentionOpenId mention with
    | Some openId =>
        if String.eqb botOpenID "" then Key mention <> None
        else openId = botOpenID
    | None => False
    end.
Proof. rewrite isBotMentioned_loop. apply mentionLoop_true. Qed.

(** X12. When the bot is not mentioned, [stripBotMention] removes no
    mention key: the content comes back as it is when the message has no
    mentions, and trimmed otherwise. *)
Theorem stripBotMention_not_mentioned botOpenID content message :
  isBotMentioned botOpenID (Some message) = false ->
  stripBotMention botOpenID content (Some message) =
  match Mentions message with
  | [] => content
  | _ => TrimSpace content
  end.
Proof.
  rewrite isBotMentioned_loop. intros H. unfold stripBotMention.
  destruct (Mentions message) as [|m ms]; [reflexivity|].
  now rewrite stripLoop_not_mentioned.
Qed.

Lemma stripBotMention_not_mentioned_witness :
  stripBotMention "ou_bot" " hi @_user_1 "
    (Some {| MessageId := None; ChatId := None; ChatType := None;
             MessageType := None; Content := None;
             Mentions := [Some {| Key := Some "@_user_1";
                                  Id := Some {| UserId_ := None;
                                                OpenId := Some "ou_alice";
                                                UnionId := None |} |}] |}) =
  TrimSpace " hi @_user_1 ".
Proof.
  match goal with
  | |- stripBotMention _ _ (Some ?m) = _ =>
      apply (stripBotMention_not_mentioned "ou_bot" " hi @_user_1 " m)
  end.
  reflexivity.
Defined.

(** X13. [stripBotMention] never makes the content longer, and when the
    message has mentions the result has no white space at either end. *)
Theorem stripBotMention_shrinks botOpenID content message :
  String.length (stripBotMention botOpenID content message) <= String.length content /\
  (forall msg, message = Some msg -> Mentions msg <> [] ->
               leadingSpace (stripBotMention botOpenID content message) = None /\
               trailingSpace (stripBotMention botOpenID content message) = None).
Proof.
  split.
  - unfold stripBotMention. destruct message as [msg|]; [|lia].
    destruct (Mentions msg) as [|m ms]; [lia|].
    pose proof (TrimSpace_length (stripLoop botOpenID (m :: ms) content)).
    pose proof (stripLoop_length botOpenID (m :: ms) content). lia.
  - intros msg -> Hne. unfold stripBotMention.
    destruct (Mentions msg) as [|m ms]; [congruence|].
    destruct (TrimSpace_spec (stripLoop botOpenID (m :: ms) content))
      as (a & b & _ & _ & _ & Hl & Hr).
    auto.
Qed.

Lemma stripBotMention_shrinks_witness :
  leadingSpace
    (stripBotMention "" "@_user_1  status?"
       (Some {| MessageId := None; ChatId := None; ChatType := None;
                MessageType := None; Content := None;
                Mentions := [Some {| Key := Some "@_user_1";
                                     Id := Some {| UserId_ := None;
                                                   OpenId := Some "ou_bot";
                                                   UnionId := None |} |}] |})) = None /\
  trailingSpace
    (stripBotMention "" "@_user_1  status?"
       (Some {| MessageId := None; ChatId := None; ChatType := None;
                MessageType := None; Content := None;
                Mentions := [Some {| Key := Some "@_user_1";
                                     Id := Some {| UserId_ := None;
                                                   OpenId := Some "ou_bot";
                                                   UnionId := None |} |}] |})) = None.
Proof.
  match goal with
  | |- leadingSpace (stripBotMention ?b ?c (Some ?m)) = None /\ _ =>
      destruct (stripBotMention_shrinks b c (Some m)) as [_ H];
      apply (H m); [reflexivity | discriminate]
  end.
Defined.

Section ReceiveInvariants.

Variable UnmarshalText : string -> option string.
Variable botOpenID : string.
Variable stringValue : option string -> string.
Variable ShouldRespondInGroup : bool -> string -> bool * string.
Variable IsAllowedSender : SenderInfo -> bool.
Variable BuildCanonicalID : string -> string -> string.

(** X14. Whatever [handleMessageReceive] hands to [HandleMessage] has a
    chat id and a sender id that are not empty and a sender that is
    allowed.  In a direct chat the peer is the sender and the content is
    not empty; in any other chat the peer is the chat and the content is
    what the group trigger returned together with its consent. *)
Theorem handleMessageReceive_forwards event inbound :
  handleMessageReceive UnmarshalText botOpenID stringValue ShouldRespondInGroup
                       IsAllowedSender BuildCanonicalID event = Some inbound ->
  in_chatID inbound <> "" /\ in_senderID inbound <> "" /\
  IsAllowedSender (in_sender inbound) = true /\
  in_sender inbound =
    {| Platform := "feishu"; PlatformID := in_senderID inbound;
       CanonicalID := BuildCanonicalID "feishu" (in_senderID inbound) |} /\
  exists ev message,
    event = Some {| Event := Some ev |} /\ Message ev = Some message /\
    in_chatID inbound = stringValue (ChatId message) /\
    if String.eqb (stringValue (ChatType message)) "p2p"
    then in_peer inbound = {| Kind := "direct"; ID := in_senderID inbound |} /\
         in_content inbound <> ""
    else in_peer inbound = {| Kind := "group"; ID := in_chatID inbound |} /\
         exists content,
           ShouldRespondInGroup (isBotMentioned botOpenID (Some message)) content =
           (true, in_content inbound).
Proof.
  unfold handleMessageReceive. intros H.
  destruct event as [[[ev|]]|]; try discriminate H. cbn [Event] in H.
  destruct (Message ev) as [message|] eqn:Em; [|discriminate H].
  destruct (String.eqb_spec (stringValue (ChatId message)) "") as [|Hchat];
    [discriminate H|].
  set (sid := if String.eqb (extractFeishuSenderID (Sender ev)) ""
              then "unknown" else extractFeishuSenderID (Sender ev)) in *.
  assert (Hsid : sid <> "").
  { unfold sid. destruct (String.eqb_spec (extractFeishuSenderID (Sender ev)) "");
      [discriminate | assumption]. }
  set (c0 := extractFeishuMessageContent UnmarshalText (Some message)) in *.
  set (c1 := if String.eqb c0 "" then "[empty message]" else c0) in *.
  assert (Hc1 : c1 <> "").
  { unfold c1. destruct (String.eqb_spec c0 ""); [discriminate | assumption]. }
  destruct (String.eqb (stringValue (ChatType message)) "p2p") eqn:Ep.
  - destruct (IsAllowedSender _) eqn:Ea; [|discriminate H]. simpl in H.
    injection H as <-. cbn.
    repeat (split; [assumption || reflexivity|]).
    exists ev, message. rewrite Ep. auto.
  - destruct (ShouldRespondInGroup _ _) as [respond cleaned] eqn:Es.
    destruct respond; [|discriminate H]. simpl in H.
    destruct (IsAllowedSender _) eqn:Ea; [|discriminate H]. simpl in H.
    injection H as <-. cbn.
    repeat (split; [assumption || reflexivity|]).
    exists ev, message. rewrite Ep.
    repeat (split; [assumption || reflexivity|]).
    eexists. exact Es.
Qed.

End ReceiveInvariants.

Lemma handleMessageReceive_forwards_witness :
  let inbound :=
    {| in_peer := {| Kind := "direct"; ID := "ou_1" |};
       in_messageID := "m1"; in_senderID := "ou_1"; in_chatID := "c1";
       in_content := "{}";
       in_metadata := [("message_type", "text"); ("chat_type", "p2p")];
       in_sender := {| Platform := "feishu"; PlatformID := "ou_1";
                       CanonicalID := "feishu:ou_1" |} |} in
  in_chatID inbound <> "" /\ in_senderID inbound <> "" /\
  (fun _ : SenderInfo => true) (in_sender inbound) = true.
Proof.
  intros inbound.
  destruct (handleMessageReceive_forwards
              (fun _ => None) "" deref (fun m c => (m, c)) (fun _ => true)
              (fun p id => (p ++ ":" ++ id)%string)
              (Some {| Event := Some
                 {| Sender := Some {| SenderId := Some {| UserId_ := Some "";
                                                          OpenId := Some "ou_1";
                                                          UnionId := None |};
                                      TenantKey := None |};
                    Message := Some {| MessageId := Some "m1"; ChatId := Some "c1";
                                       ChatType := Some "p2p";
                                       MessageType := Some "text";
                                       Content := Some "{}"; Mentions := [] |} |} |})
              inbound) as (H1 & H2 & H3 & _).
  - reflexivity.
  - auto.
Defined.

(** * File types *)

Section FileFacts.

Variable IsPathSeparator : ascii -> bool.
Variable unicodeLower : string -> string.

Lemma get_skip (p e : string) (k : nat) :
  String.get (String.length p + k) (p ++ e) = String.get k e.
Proof. induction p as [|a p IH]; simpl; [reflexivity | exact IH]. Qed.

Lemma allBytes_get f e k c :
  allBytes f e = true -> String.get k e = Some c -> f c = true.
Proof.
  revert k; induction e as [|a e IH]; intros k Hall Hg; simpl in *; [discriminate|].
  apply andb_prop in Hall. destruct Hall as [Ha He].
  destruct k as [|k]; [injection Hg as <-; assumption | eauto].
Qed.

Lemma get_some (e : string) (k : nat) :
  k < String.length e -> exists c, String.get k e = Some c.
Proof.
  revert k; induction e as [|a e IH]; intros k H; simpl in *; [lia|].
  destruct k as [|k]; [eauto | apply IH; lia].
Qed.

(** The loop of [Ext] runs over a name part without stopping. *)
Lemma extLoop_scan (p e : string) (k : nat) :
  namePart IsPathSeparator e = true -> k <= String.length e ->
  extLoop IsPathSeparator (p ++ e) (String.length p + k) =
  extLoop IsPathSeparator (p ++ e) (String.length p).
Proof.
  intros Hn. induction k as [|k IH]; intros Hk.
  - now rewrite Nat.add_0_r.
  - rewrite Nat.add_succ_r. cbn [extLoop]. rewrite get_skip.
    destruct (get_some e k) as [c Hc]; [lia|]. rewrite Hc.
    pose proof (allBytes_get _ _ _ _ Hn Hc) as Hp. cbv beta in Hp.
    apply andb_prop in Hp. destruct Hp as [Hdot Hsep].
    apply negb_true_iff in Hdot, Hsep. rewrite Hsep, Hdot.
    apply IH. lia.
Qed.

Lemma Ext_last (p e : string) :
  IsPathSeparator "." = false -> namePart IsPathSeparator e = true ->
  Ext IsPathSeparator (p ++ "." ++ e) = ("." ++ e)%string.
Proof.
  intros Hdot Hn. unfold Ext.
  replace (p ++ "." ++ e)%string with ((p ++ ".") ++ e)%string
    by (now rewrite append_assoc).
  replace (String.length ((p ++ ".") ++ e))
    with (String.length (p ++ ".") + String.length e)
    by (now rewrite (length_append (p ++ ".") e)).
  rewrite extLoop_scan by (auto; lia).
  rewrite length_append. cbn [String.length].
  rewrite Nat.add_1_r. cbn [extLoop].
  rewrite append_assoc.
  pose proof (get_skip p ("." ++ e) 0) as Hg. rewrite Nat.add_0_r in Hg.
  rewrite Hg. cbn [String.get append]. rewrite Hdot. cbn [Ascii.eqb].
  change (Ascii.eqb "." ".") with true. cbv iota.
  apply drop_append.
Qed.

Lemma Ext_none (dir base : string) :
  namePart IsPathSeparator base = true ->
  dir = "" \/ (exists d c, dir = (d ++ String c "")%string /\ IsPathSeparator c = true) ->
  Ext IsPathSeparator (dir ++ base) = "".
Proof.
  intros Hn Hdir. unfold Ext. rewrite length_append.
  rewrite extLoop_scan by (auto; lia).
  destruct Hdir as [->|(d & c & -> & Hc)]; [reflexivity|].
  rewrite length_append. cbn [String.length]. rewrite Nat.add_1_r. cbn [extLoop].
  rewrite append_assoc.
  pose proof (get_skip d (String c "" ++ base) 0) as Hg. rewrite Nat.add_0_r in Hg.
  rewrite Hg. cbn [String.get append]. now rewrite Hc.
Qed.

Lemma ToLower_ascii (s : string) :
  allBytes isASCII s = true -> ToLower unicodeLower s = asciiLower s.
Proof. intros H. unfold ToLower. now rewrite H. Qed.

(** X15. [inferFeishuFileType] looks at nothing but the last extension of
    the name, whatever the case of its letters: two names whose last
    extensions are ASCII and equal up to case have the same file type. *)
Theorem inferFeishuFileType_by_extension p p' e e' :
  IsPathSeparator "." = false ->
  namePart IsPathSeparator e = true -> namePart IsPathSeparator e' = true ->
  allBytes isASCII e = true -> allBytes isASCII e' = true ->
  asciiLower e = asciiLower e' ->
  inferFeishuFileType IsPathSeparator unicodeLower (p ++ "." ++ e) =
  inferFeishuFileType IsPathSeparator unicodeLower (p' ++ "." ++ e').
Proof.
  intros Hdot Hn Hn' Ha Ha' Hl. unfold inferFeishuFileType.
  rewrite !Ext_last by assumption.
  rewrite !ToLower_ascii by (simpl; rewrite ?Ha, ?Ha'; reflexivity).
  simpl asciiLower. now rewrite Hl.
Qed.

(** X16. A name whose last path element has no dot is sent as a stream. *)
Theorem inferFeishuFileType_no_extension dir base :
  namePart IsPathSeparator base = true ->
  dir = "" \/ (exists d c, dir = (d ++ String c "")%string /\ IsPathSeparator c = true) ->
  inferFeishuFileType IsPathSeparator unicodeLower (dir ++ base) = FileTypeStream.
Proof.
  intros Hn Hdir. unfold inferFeishuFileType.
  rewrite Ext_none by assumption. reflexivity.
Qed.

Variable TypeByExtension : string -> string.

(** X17. [inferContentType] always gives a content type: the one of the
    system tables when they know the extension, and otherwise one of its
    own, [application/octet-stream] at the least. *)
Theorem inferContentType_never_empty filename :
  inferContentType IsPathSeparator unicodeLower TypeByExtension filename <> "" /\
  (TypeByExtension (ToLower unicodeLower (Ext IsPathSeparator filename)) <> "" ->
   inferContentType IsPathSeparator unicodeLower TypeByExtension filename =
   TypeByExtension (ToLower unicodeLower (Ext IsPathSeparator filename))).
Proof.
  unfold inferContentType.
  set (ext := ToLower unicodeLower (Ext IsPathSeparator filename)).
  destruct (String.eqb_spec (TypeByExtension ext) "") as [E|E]; simpl.
  - split; [|contradiction].
    repeat match goal with
           | |- context [String.eqb ext ?x] => destruct (String.eqb ext x); simpl
           end; discriminate.
  - split; [assumption | reflexivity].
Qed.

End FileFacts.

Lemma inferFeishuFileType_by_extension_witness :
  inferFeishuFileType (Ascii.eqb "/") (fun s => s) ("/tmp/Report.final" ++ "." ++ "PdF") =
  inferFeishuFileType (Ascii.eqb "/") (fun s => s) ("x" ++ "." ++ "pdf").
Proof.
  apply inferFeishuFileType_by_extension; reflexivity.
Defined.

Lemma inferFeishuFileType_no_extension_witness :
  inferFeishuFileType (Ascii.eqb "/") (fun s => s) ("backup.d/" ++ "Makefile") =
  FileTypeStream.
Proof.
  apply inferFeishuFileType_no_extension; [reflexivity|].
  right. exists "backup.d", "/"%char. split; reflexivity.
Defined.

Lemma inferContentType_never_empty_witness :
  inferContentType (Ascii.eqb "/") (fun s => s)
    (fun ext => if String.eqb ext ".txt" then "text/plain" else "") "notes.txt" =
  "text/plain".
Proof.
  destruct (inferContentType_never_empty (Ascii.eqb "/") (fun s => s)
              (fun ext => if String.eqb ext ".txt" then "text/plain" else "")
              "notes.txt") as [_ H].
  apply H. discriminate.
Defined.

(** * The [send_file] tool *)

Section ToolFacts.

Variable IsPathSeparator : ascii -> bool.
Variable unicodeLower : string -> string.
Variable TypeByExtension : string -> string.
Variable IsAbs : string -> bool.
Variable Join : string -> string -> string.
Variable Base : string -> string.
Variable Stat : string -> StatResult.
Variable isWithinWorkspace : string -> string -> bool.
Variable UnixNano : string.

(** X18. [Execute] sends a file only after every check has passed: the
    argument [path] is a string that is not empty, the resolved path
    exists and is not a directory, it lies within the workspace when the
    tool is restricted to a workspace that is set, and the media store is
    there and has registered that very path; the result carries the
    reference the store returned and nothing else. *)
Theorem Execute_sends_only_checked t args forLLM silent media :
  Execute IsPathSeparator unicodeLower TypeByExtension IsAbs Join Base Stat
          isWithinWorkspace UnixNano t args = Sent forLLM silent media ->
  exists path store ref,
    get args "path" = Some (VString path) /\ path <> "" /\
    Stat (resolvePath IsAbs Join t path) = StatInfo false /\
    (restrictToWorkspace t = true -> workingDir t <> "" ->
     isWithinWorkspace (resolvePath IsAbs Join t path) (workingDir t) = true) /\
    mediaStore t = Some store /\
    store (resolvePath IsAbs Join t path)
          {| Filename := Base (resolvePath IsAbs Join t path);
             ContentType :=
               inferContentType IsPathSeparator unicodeLower TypeByExtension
                                (Base (resolvePath IsAbs Join t path));
             Source := "tool:send_file" |}
          ("send_file:" ++ channel t ++ ":" ++ chatID t ++ ":" ++ UnixNano)%string
      = inl ref /\
    media = [ref] /\ silent = false.
Proof.
  unfold Execute. intros H.
  destruct (get args "path") as [[|path|l|m]|]; try discriminate H.
  destruct (String.eqb_spec path "") as [|Hne]; [discriminate H|].
  destruct (Stat (resolvePath IsAbs Join t path)) as [ne text|isDir] eqn:Es.
  { destruct ne; discriminate H. }
  destruct isDir; [discriminate H|].
  destruct (restrictToWorkspace t && negb (String.eqb (workingDir t) "") &&
            negb (isWithinWorkspace (resolvePath IsAbs Join t path) (workingDir t)))
    eqn:Er; [discriminate H|].
  destruct (mediaStore t) as [store|]; [|discriminate H].
  destruct (store _ _ _) as [ref|text] eqn:Est; [|discriminate H].
  injection H as <- <- <-.
  exists path, store, ref. repeat (split; [assumption || reflexivity|]).
  split; [|auto].
  intros Hr Hw. rewrite Hr in Er. simpl in Er.
  destruct (String.eqb_spec (workingDir t) ""); [contradiction|]. simpl in Er.
  now apply negb_false_iff in Er.
Qed.

(** X19. A restricted tool with a workspace never hands a path outside
    the workspace to the media store: [Execute] answers with an error,
    whatever store is installed. *)
Theorem Execute_refuses_outside_workspace t args path :
  get args "path" = Some (VString path) ->
  restrictToWorkspace t = true -> workingDir t <> "" ->
  isWithinWorkspace (resolvePath IsAbs Join t path) (workingDir t) = false ->
  exists message,
    Execute IsPathSeparator unicodeLower TypeByExtension IsAbs Join Base Stat
            isWithinWorkspace UnixNano t args = ErrorResult message /\
    forall store,
      Execute IsPathSeparator unicodeLower TypeByExtension IsAbs Join Base Stat
              isWithinWorkspace UnixNano
              {| workingDir := workingDir t; restrictToWorkspace := true;
                 mediaStore := store; channel := channel t; chatID := chatID t |} args =
      ErrorResult message.
Proof.
  intros Hp Hr Hw Hout. unfold Execute. rewrite Hp.
  assert (Hres : forall store,
             resolvePath IsAbs Join
               {| workingDir := workingDir t; restrictToWorkspace := true;
                  mediaStore := store; channel := channel t; chatID := chatID t |}
               path = resolvePath IsAbs Join t path) by reflexivity.
  destruct (String.eqb_spec path "") as [|Hne].
  { eexists. split; [reflexivity|]. intros store. reflexivity. }
  destruct (Stat (resolvePath IsAbs Join t path)) as [ne text|isDir] eqn:Es.
  { destruct ne; eexists; (split; [reflexivity|]); intros store;
      rewrite Hres, Es; reflexivity. }
  destruct isDir.
  { eexists. split; [reflexivity|]. intros store. rewrite Hres, Es. reflexivity. }
  rewrite Hr, Hout. destruct (String.eqb_spec (workingDir t) ""); [contradiction|].
  simpl. eexists. split; [reflexivity|]. intros store.
  rewrite Hres, Es. cbn [restrictToWorkspace workingDir]. rewrite Hout.
  destruct (String.eqb_spec (workingDir t) ""); [contradiction | reflexivity].
Qed.

End ToolFacts.

Lemma Execute_sends_only_checked_witness :
  exists path,
    get [("path", VString "out/plot.png")] "path" = Some (VString path) /\
    path <> "" /\
    HasPrefix (if negb (HasPrefix path "/") then "/ws/" ++ path else path)%string
              "/ws" = true.
Proof.
  destruct (Execute_sends_only_checked
              (Ascii.eqb "/") (fun s => s) (fun _ => "")
              (fun p => HasPrefix p "/") (fun a b => (a ++ "/" ++ b)%string)
              (fun p => p) (fun _ => StatInfo false)
              (fun p ws => HasPrefix p ws) "1"
              {| workingDir := "/ws"; restrictToWorkspace := true;
                 mediaStore := Some (fun p _ _ => inl ("media://" ++ p)%string);
                 channel := "feishu"; chatID := "c1" |}
              [("path", VString "out/plot.png")]
              "File '/ws/out/plot.png' sent to user successfully" false
              ["media:///ws/out/plot.png"] eq_refl)
    as (path & store & ref & Hp & Hne & _ & Hw & _).
  exists path. split; [exact Hp|]. split; [exact Hne|].
  injection Hp as <-. apply Hw; [reflexivity | discriminate].
Defined.

Lemma Execute_refuses_outside_workspace_witness :
  exists message,
    Execute (Ascii.eqb "/") (fun s => s) (fun _ => "")
            (fun p => HasPrefix p "/") (fun a b => (a ++ "/" ++ b)%string)
            (fun p => p) (fun _ => StatInfo false)
            (fun p ws => HasPrefix p ws) "1"
            {| workingDir := "/ws"; restrictToWorkspace := true;
               mediaStore := Some (fun p _ _ => inl ("media://" ++ p)%string);
               channel := "feishu"; chatID := "c1" |}
            [("path", VString "/etc/passwd")] = ErrorResult message.
Proof.
  destruct (Execute_refuses_outside_workspace
              (Ascii.eqb "/") (fun s => s) (fun _ => "")
              (fun p => HasPrefix p "/") (fun a b => (a ++ "/" ++ b)%string)
              (fun p => p) (fun _ => StatInfo false)
              (fun p ws => HasPrefix p ws) "1"
              {| workingDir := "/ws"; restrictToWorkspace := true;
                 mediaStore := Some (fun p _ _ => inl ("media://" ++ p)%string);
                 channel := "feishu"; chatID := "c1" |}
              [("path", VString "/etc/passwd")] "/etc/passwd")
    as (message & H & _).
  - reflexivity.
  - reflexivity.
  - discriminate.
  - reflexivity.
  - exists message. exact H.
Defined.

(** * The runs of a document *)

(** X20. Every run of every document has one of three shapes: a plain run
    with the keys [tag] and [text]; a link with [tag], [text] and [href],
    both texts not empty; or a styled run with [tag], [text] and a [style]
    of exactly one entry among [code_block], [bold] and [lineThrough]. *)
Theorem document_runs_wellformed text line e :
  In line (contentLinesOf text) -> In e line ->
  (exists t, e = PlainText t) \/
  (exists t h, t <> "" /\ h <> "" /\ e = Link t h) \/
  (exists t st, In st ["code_block"; "bold"; "lineThrough"] /\ e = StyledText t st).
Proof.
  intros Hl He.
  destruct (contentLinesOf_In _ _ Hl) as (b & Hb & Ha & _).
  assert (Hin : In line (assemble b)) by (rewrite Ha; now left).
  pose proof (block_elements _ _ _ _ Hb Hin He) as H.
  destruct b as [cl|t| |l].
  - right. right. exists (JoinLines cl), "code_block". split; [simpl; auto | exact H].
  - destruct H as [_ ->]. right. right. exists t, "bold". split; [simpl; auto | reflexivity].
  - left. exists "". exact H.
  - destruct H as [t Ht|t h Ht Hh|t st Ht Hst].
    + left. eauto.
    + right. left. eauto.
    + right. right. eauto.
Qed.

Lemma document_runs_wellformed_witness :
  (exists t, Link "a" "b" = PlainText t) \/
  (exists t h, t <> "" /\ h <> "" /\ Link "a" "b" = Link t h) \/
  (exists t st, In st ["code_block"; "bold"; "lineThrough"] /\
                Link "a" "b" = StyledText t st).
Proof.
  apply (document_runs_wellformed (JoinLines ["# T"; "see [a](b)"])
                                  [PlainText "see "; Link "a" "b"]).
  - vm_compute. auto.
  - simpl. auto.
Defined.
